(** * Citadel bcrypt_pbkdf: a shallow embedding of
      Sources/CCitadelBcrypt/bcrypt-kdf.c and its verified properties.

    Bytes and machine words are integers ([Z]); the wrap-around of the C
    integer types is written out ([u32] for [uint32_t], [sz] for [size_t]
    on the 64-bit targets of the package).  Buffers are lists, read with
    [load] and updated in place with [store]. *)

From Stdlib Require Import ZArith Lia List Bool Ascii String.
From stdpp Require Import base list finite.

Local Open Scope Z_scope.

(** ** Machine integers and buffers *)

Definition u32 (x : Z) : Z := x mod 4294967296.              (* 2^32 *)
Definition sz (x : Z) : Z := x mod 18446744073709551616.     (* 2^64 *)

(** [buf[i]] and [buf[i] = v].  Indices are unsigned in the source; an
    index outside the buffer is undefined behaviour in C and leaves the
    list unchanged here. *)
Definition load (buf : list Z) (i : Z) : Z := buf !!! Z.to_nat i.
Definition store (buf : list Z) (i : Z) (v : Z) : list Z :=
  <[Z.to_nat i := v]> buf.

(** [memcpy(dst, src, n)] *)
Definition memcpy (dst src : list Z) (n : Z) : list Z :=
  take (Z.to_nat n) src ++ drop (Z.to_nat n) dst.

(** [explicit_bzero(buf, sizeof buf)] on an array *)
Definition explicit_bzero (buf : list Z) : list Z :=
  replicate (length buf) 0.

(** [for (i = lo; i < hi; i++) body] for the counted loops without [break]. *)
Fixpoint for_upto {S : Type} (n : nat) (i : Z) (body : Z -> S -> S) (s : S) : S :=
  match n with
  | O => s
  | Datatypes.S n' => for_upto n' (i + 1) body (body i s)
  end.

Definition for_range {S : Type} (lo hi : Z) (body : Z -> S -> S) (s : S) : S :=
  for_upto (Z.to_nat (hi - lo)) lo body s.

Definition SHA512_DIGEST_LENGTH : Z := 64.
Definition BCRYPT_WORDS : Z := 8.
Definition BCRYPT_HASHSIZE : Z := BCRYPT_WORDS * 4.

Definition MINIMUM (a b : Z) : Z := if a <? b then a else b.

(** The magic string copied into [ciphertext] (32 characters, no
    terminator fits in the array). *)
Definition magic : list Z :=
  map (fun a => Z.of_N (N_of_ascii a))
      (list_ascii_of_string "OxychromaticBlowfishSwatDynamite").

(** ** The Blowfish primitives of blf.h

    bcrypt-kdf.c calls five functions declared in blf.h, which is not part
    of the sources at hand; they are taken as an interface.  Functions that
    update [*state], [*data] or [*current] in place return the new value. *)
Class Blowfish := {
  blf_ctx : Type;
  citadel_Blowfish_initstate : blf_ctx;
  citadel_Blowfish_expandstate :
    blf_ctx -> list Z -> Z -> list Z -> Z -> blf_ctx;
  citadel_Blowfish_expand0state : blf_ctx -> list Z -> Z -> blf_ctx;
  (* data, databytes, *current  |->  word, new *current *)
  citadel_Blowfish_stream2word : list Z -> Z -> Z -> Z * Z;
  (* state, data, blocks  |->  new data *)
  citadel_blf_enc : blf_ctx -> list Z -> Z -> list Z
}.

Section Bcrypt.

Context {BF : Blowfish}.
(** The digest installed in [citadel_crypto_hash_sha512]: it maps the
    [passlen] input bytes to the bytes it leaves in [out]. *)
Variable hash : list Z -> list Z.

Definition citadel_crypto_hash_sha512 (input : list Z) (len : Z) : list Z :=
  hash (take (Z.to_nat len) input).

(** *** bcrypt_hash *)

(** Lines 68-69: the eight words read from the magic string. *)
Definition load_cdata (ciphertext : list Z) (cdata : list Z) : list Z * Z :=
  for_range 0 BCRYPT_WORDS
    (fun i '(cdata, j) =>
       let '(w, j') :=
         citadel_Blowfish_stream2word ciphertext (Z.of_nat (length ciphertext)) j in
       (store cdata i w, j'))
    (cdata, 0).

(** Lines 74-79: copy out. *)
Definition copy_out (cdata out : list Z) : list Z :=
  for_range 0 BCRYPT_WORDS
    (fun i out =>
       let out := store out (4 * i + 3) (Z.land (Z.shiftr (load cdata i) 24) 255) in
       let out := store out (4 * i + 2) (Z.land (Z.shiftr (load cdata i) 16) 255) in
       let out := store out (4 * i + 1) (Z.land (Z.shiftr (load cdata i) 8) 255) in
       let out := store out (4 * i + 0) (Z.land (load cdata i) 255) in
       out)
    out.

(** The value of [cdata] when control reaches the copy-out loop. *)
Definition bcrypt_cdata (sha2pass sha2salt : list Z) : list Z :=
  let shalen := SHA512_DIGEST_LENGTH in
  (* key expansion *)
  let state := citadel_Blowfish_initstate in
  let state := citadel_Blowfish_expandstate state sha2salt shalen sha2pass shalen in
  let state :=
    for_range 0 64
      (fun _ state =>
         let state := citadel_Blowfish_expand0state state sha2salt shalen in
         citadel_Blowfish_expand0state state sha2pass shalen)
      state in
  (* encryption *)
  let ciphertext := magic in
  let '(cdata, _) := load_cdata ciphertext (replicate (Z.to_nat BCRYPT_WORDS) 0) in
  for_range 0 64 (fun _ cdata => citadel_blf_enc state cdata (BCRYPT_WORDS / 2)) cdata.

(** [bcrypt_hash(sha2pass, sha2salt, out)]: the new contents of [out].
    The three locals are zeroed before the return and are not visible to
    the caller. *)
Definition bcrypt_hash (sha2pass sha2salt out : list Z) : list Z :=
  copy_out (bcrypt_cdata sha2pass sha2salt) out.

(** *** citadel_bcrypt_pbkdf *)

(** What the call receives from its surroundings besides its arguments. *)
Record env := {
  on_apple : bool;          (* compiled with __APPLE__ defined *)
  calloc_ok : bool;         (* calloc returns a block, not NULL *)
  random_byte : nat -> Z;   (* k-th byte delivered by the system RNG *)
  garbage : nat -> Z        (* contents of uninitialised stack memory *)
}.

(** An array declared without initialiser. *)
Definition uninit (e : env) (n : Z) : list Z :=
  map (garbage e) (seq 0 (Z.to_nat n)).

Definition random_fill (e : env) (buf : list Z) (len : Z) : list Z :=
  map (random_byte e) (seq 0 (Z.to_nat len)) ++ drop (Z.to_nat len) buf.

(** [arc4random_buf(buf, len)] always fills the buffer. *)
Definition arc4random_buf (e : env) (buf : list Z) (len : Z) : list Z :=
  random_fill e buf len.

(** [getentropy(buf, len)]: the buffer afterwards and the return value.
    getentropy(3): a request for more than 256 bytes fails with EIO and
    stores nothing. *)
Definition getentropy (e : env) (buf : list Z) (len : Z) : list Z * Z :=
  if len >? 256 then (buf, -1) else (random_fill e buf len, 0).

(** The variables that change in the loop of lines 117-148, the caller's
    [key] buffer, and three ghost fields: the number of calls of the
    digest and of [bcrypt_hash] so far, and the indices stored to in
    [key], oldest first. *)
Record loop_state := {
  ls_countsalt : list Z;
  ls_sha2salt : list Z;
  ls_out : list Z;
  ls_tmpout : list Z;
  ls_amt : Z;
  ls_keylen : Z;
  ls_count : Z;
  ls_key : list Z;
  ls_sha512_calls : nat;
  ls_bcrypt_calls : nat;
  ls_key_stores : list Z
}.

(** Lines 133-134. *)
Definition xor_into (out tmpout : list Z) : list Z :=
  for_range 0 BCRYPT_HASHSIZE
    (fun j out => store out j (Z.lxor (load out j) (load tmpout j))) out.

(** Lines 130-134, one pass of the loop over [rounds]; the state is
    (sha2salt, tmpout, out). *)
Definition round_body (sha2pass : list Z) (s : list Z * list Z * list Z)
  : list Z * list Z * list Z :=
  let '(_, tmpout, out) := s in
  let sha2salt := citadel_crypto_hash_sha512 tmpout BCRYPT_HASHSIZE in
  let tmpout := bcrypt_hash sha2pass sha2salt tmpout in
  (sha2salt, tmpout, xor_into out tmpout).

(** Lines 141-146: [n] passes are left, the loop variable is [i]; gives
    [key], the value of [i] at the exit, and the log of stores. *)
Fixpoint assemble (n : nat) (i stride count origkeylen : Z)
    (out key log : list Z) : list Z * Z * list Z :=
  match n with
  | O => (key, i, log)
  | Datatypes.S n' =>
      let dest := sz (sz (i * stride) + u32 (count - 1)) in
      if dest >=? origkeylen then (key, i, log)
      else assemble n' (i + 1) stride count origkeylen out
             (store key dest (load out i)) (log ++ [dest])
  end.

(** Lines 118-135: the counter is written behind the salt and the block
    for this counter is accumulated; gives (countsalt, sha2salt, tmpout,
    out). *)
Definition gen_block (sha2pass : list Z) (saltlen rounds count : Z)
    (countsalt tmpout out : list Z) : list Z * list Z * list Z * list Z :=
  let countsalt := store countsalt (saltlen + 0) (Z.land (Z.shiftr count 24) 255) in
  let countsalt := store countsalt (saltlen + 1) (Z.land (Z.shiftr count 16) 255) in
  let countsalt := store countsalt (saltlen + 2) (Z.land (Z.shiftr count 8) 255) in
  let countsalt := store countsalt (saltlen + 3) (Z.land count 255) in
  (* first round, salt is salt *)
  let sha2salt := citadel_crypto_hash_sha512 countsalt (sz (saltlen + 4)) in
  let tmpout := bcrypt_hash sha2pass sha2salt tmpout in
  let out := memcpy out tmpout BCRYPT_HASHSIZE in
  (* subsequent rounds, salt is previous output *)
  let '(sha2salt, tmpout, out) :=
    for_range 1 rounds (fun _ => round_body sha2pass) (sha2salt, tmpout, out) in
  (countsalt, sha2salt, tmpout, out).

(** Lines 118-147: one pass of the outer loop. *)
Definition loop_body (sha2pass : list Z) (saltlen rounds stride origkeylen : Z)
    (st : loop_state) : loop_state :=
  let count := ls_count st in
  let '(countsalt, sha2salt, tmpout, out) :=
    gen_block sha2pass saltlen rounds count
      (ls_countsalt st) (ls_tmpout st) (ls_out st) in
  (* output the key material non-linearly *)
  let amt := MINIMUM (ls_amt st) (ls_keylen st) in
  let '(key, i, log) :=
    assemble (Z.to_nat amt) 0 stride count origkeylen out
      (ls_key st) (ls_key_stores st) in
  {| ls_countsalt := countsalt;
     ls_sha2salt := sha2salt;
     ls_out := out;
     ls_tmpout := tmpout;
     ls_amt := amt;
     ls_keylen := sz (ls_keylen st - i);
     ls_count := u32 (count + 1);
     ls_key := key;
     ls_sha512_calls := (ls_sha512_calls st + 1 + Z.to_nat (rounds - 1))%nat;
     ls_bcrypt_calls := (ls_bcrypt_calls st + 1 + Z.to_nat (rounds - 1))%nat;
     ls_key_stores := log |}.

(** Lines 117-148: [for (count = 1; keylen > 0; count++)].  Nothing in the
    loop header bounds the number of passes, so the model runs on fuel and
    gives [None] when it is used up. *)
Fixpoint outer_loop (fuel : nat) (sha2pass : list Z)
    (saltlen rounds stride origkeylen : Z) (st : loop_state)
  : option loop_state :=
  match fuel with
  | O => if ls_keylen st >? 0 then None else Some st
  | Datatypes.S fuel' =>
      if ls_keylen st >? 0
      then outer_loop fuel' sha2pass saltlen rounds stride origkeylen
             (loop_body sha2pass saltlen rounds stride origkeylen st)
      else Some st
  end.

(** What is left when the call returns: the return value, the caller's
    buffer, the four stack arrays, the contents the [countsalt] block had
    when it was passed to [free] ([None]: no block was allocated), the
    loop counter, and the ghost fields. *)
Record outcome := {
  ret : Z;
  r_key : list Z;
  r_sha2pass : list Z;
  r_sha2salt : list Z;
  r_out : list Z;
  r_tmpout : list Z;
  r_freed : option (list Z);
  r_count : Z;
  r_sha512_calls : nat;
  r_bcrypt_calls : nat;
  r_key_stores : list Z
}.

(** Lines 158-165, reached before any local has been assigned. *)
Definition bad (e : env) (key : list Z) (keylen : Z) : outcome :=
  let key :=
    if on_apple e then arc4random_buf e key keylen
    else fst (getentropy e key keylen) in
  {| ret := -1;
     r_key := key;
     r_sha2pass := uninit e SHA512_DIGEST_LENGTH;
     r_sha2salt := uninit e SHA512_DIGEST_LENGTH;
     r_out := uninit e BCRYPT_HASHSIZE;
     r_tmpout := uninit e BCRYPT_HASHSIZE;
     r_freed := None;
     r_count := garbage e 0;
     r_sha512_calls := 0;
     r_bcrypt_calls := 0;
     r_key_stores := [] |}.

(** Lines 108-109. *)
Definition stride_of (keylen : Z) : Z :=
  sz (sz (keylen + BCRYPT_HASHSIZE) - 1) / BCRYPT_HASHSIZE.

Definition amt_of (keylen : Z) : Z :=
  let stride := stride_of keylen in
  sz (sz (keylen + stride) - 1) / stride.

(** The loop state at line 117, after [count = 1]: the block from
    [calloc] holds the salt, the password has been hashed. *)
Definition loop_init (e : env) (salt key : list Z) : loop_state :=
  let saltlen := Z.of_nat (length salt) in
  let keylen := Z.of_nat (length key) in
  let countsalt := replicate (Z.to_nat (sz (saltlen + 4))) 0 in
  let countsalt := memcpy countsalt salt saltlen in
  {| ls_countsalt := countsalt;
     ls_sha2salt := uninit e SHA512_DIGEST_LENGTH;
     ls_out := uninit e BCRYPT_HASHSIZE;
     ls_tmpout := uninit e BCRYPT_HASHSIZE;
     ls_amt := amt_of keylen;
     ls_keylen := keylen;
     ls_count := 1;
     ls_key := key;
     ls_sha512_calls := 1;
     ls_bcrypt_calls := 0;
     ls_key_stores := [] |}.

(** [citadel_bcrypt_pbkdf(pass, passlen, salt, saltlen, key, keylen, rounds)]
    with [passlen], [saltlen] and [keylen] the lengths of the three
    buffers. *)
Definition citadel_bcrypt_pbkdf (fuel : nat) (e : env)
    (pass salt key : list Z) (rounds : Z) : option outcome :=
  let passlen := Z.of_nat (length pass) in
  let saltlen := Z.of_nat (length salt) in
  let keylen := Z.of_nat (length key) in
  let origkeylen := keylen in
  (* nothing crazy *)
  if rounds <? 1 then Some (bad e key keylen)
  else if (passlen =? 0) || (saltlen =? 0) || (keylen =? 0)
          || (keylen >? BCRYPT_HASHSIZE * BCRYPT_HASHSIZE)
          || (saltlen >? Z.shiftl 1 20)
  then Some (bad e key keylen)
  else if negb (calloc_ok e) then Some (bad e key keylen)
  else
    let stride := stride_of keylen in
    (* collapse password *)
    let sha2pass := citadel_crypto_hash_sha512 pass passlen in
    (* generate key, sizeof(out) at a time *)
    match outer_loop fuel sha2pass saltlen rounds stride origkeylen
            (loop_init e salt key) with
    | None => None
    | Some st =>
        (* zap *)
        Some {| ret := 0;
                r_key := ls_key st;
                r_sha2pass := sha2pass;
                r_sha2salt := ls_sha2salt st;
                r_out := explicit_bzero (ls_out st);
                r_tmpout := explicit_bzero (ls_tmpout st);
                r_freed := Some (ls_countsalt st);
                r_count := ls_count st;
                r_sha512_calls := ls_sha512_calls st;
                r_bcrypt_calls := ls_bcrypt_calls st;
                r_key_stores := ls_key_stores st |}
    end.

End Bcrypt.

Arguments citadel_bcrypt_pbkdf {BF} hash fuel e pass salt key rounds.

(** ** A small instance

    A stand-in for the Blowfish interface and two digests, used to run the
    model on concrete inputs. *)
Module Toy.

Definition sum_bytes (l : list Z) : Z := fold_right Z.add 0 l.

#[export] Instance toy_blowfish : Blowfish := {|
  blf_ctx := Z;
  citadel_Blowfish_initstate := 1;
  citadel_Blowfish_expandstate st data _ key _ :=
    u32 (st * 31 + sum_bytes data + 7 * sum_bytes key);
  citadel_Blowfish_expand0state st key _ := u32 (st * 33 + sum_bytes key);
  citadel_Blowfish_stream2word data databytes j :=
    (load data j * 2 ^ 24 + load data ((j + 1) mod databytes) * 2 ^ 16
     + load data ((j + 2) mod databytes) * 2 ^ 8
     + load data ((j + 3) mod databytes),
     (j + 4) mod databytes);
  citadel_blf_enc st data _ := map (fun w => u32 (w * 5 + st)) data
|}.

(** A digest of 64 bytes that depends on its input. *)
Definition toy_hash (input : list Z) : list Z :=
  map (fun k => (sum_bytes input + 3 * Z.of_nat k) mod 256) (seq 0 64).


(** A digest that is [toy_hash] on inputs of 2, 8 or 32 bytes and empty
    elsewhere. *)
Definition toy_hash_2_8_32 (input : list Z) : list Z :=
  if ((length input =? 2) || (length input =? 8) || (length input =? 32))%nat
  then toy_hash input else [].

Definition env0 : env :=
  {| on_apple := false; calloc_ok := true;
     random_byte := fun k => (Z.of_nat k * 7 + 1) mod 256;
     garbage := fun k => (Z.of_nat k + 170) mod 256 |}.

Definition env1 : env :=
  {| on_apple := true; calloc_ok := true;
     random_byte := fun k => (Z.of_nat k * 13 + 5) mod 256;
     garbage := fun k => (Z.of_nat k * 3 + 85) mod 256 |}.

End Toy.

(** ** Derived notions used in the statements *)

(** The four bytes the copy-out loop stores for one word, in the order of
    their addresses. *)
Definition le_bytes (w : Z) : list Z :=
  [Z.land w 255; Z.land (Z.shiftr w 8) 255;
   Z.land (Z.shiftr w 16) 255; Z.land (Z.shiftr w 24) 255].

(** The counter as lines 118-121 lay it out behind the salt. *)
Definition be32 (count : Z) : list Z :=
  [Z.land (Z.shiftr count 24) 255; Z.land (Z.shiftr count 16) 255;
   Z.land (Z.shiftr count 8) 255; Z.land count 255].

(** Reading four bytes as a big-endian number. *)
Definition be32_decode (l : list Z) : Z :=
  load l 0 * 2 ^ 24 + load l 1 * 2 ^ 16 + load l 2 * 2 ^ 8 + load l 3.

Section Blocks.

Context {BF : Blowfish}.
Variable hash : list Z -> list Z.

(** The accumulated 32-byte block for counter value [count]: lines
    118-135 run on the salt block and on zeroed stack arrays. *)
Definition pbkdf_block_state (pass salt : list Z) (rounds count : Z)
  : list Z * list Z * list Z * list Z :=
  let saltlen := Z.of_nat (length salt) in
  let sha2pass := citadel_crypto_hash_sha512 hash pass (Z.of_nat (length pass)) in
  let countsalt :=
    memcpy (replicate (Z.to_nat (sz (saltlen + 4))) 0) salt saltlen in
  gen_block hash sha2pass saltlen rounds count countsalt
    (replicate 32 0) (replicate 32 0).

Definition pbkdf_block (pass salt : list Z) (rounds count : Z) : list Z :=
  snd (pbkdf_block_state pass salt rounds count).

(** The last [bcrypt_hash] output that went into that block. *)
Definition pbkdf_last_tmpout (pass salt : list Z) (rounds count : Z) : list Z :=
  snd (fst (pbkdf_block_state pass salt rounds count)).

(** The last salt digest computed for that block. *)
Definition pbkdf_last_sha2salt (pass salt : list Z) (rounds count : Z) : list Z :=
  snd (fst (fst (pbkdf_block_state pass salt rounds count))).

(** What lines 118-135 compute, in terms of the salt and the counter
    only. *)
Definition block_of (sha2pass salt : list Z) (rounds count : Z)
  : list Z * list Z * list Z * list Z :=
  let cs := salt ++ be32 count in
  let sha2salt :=
    citadel_crypto_hash_sha512 hash cs (sz (Z.of_nat (length salt) + 4)) in
  let tmp := bcrypt_hash sha2pass sha2salt (replicate 32 0) in
  let r := for_range 1 rounds (fun _ => round_body hash sha2pass)
             (sha2salt, tmp, tmp) in
  (cs, r.1.1, r.1.2, r.2).

End Blocks.

(** The arguments the validation of lines 101-105 lets through. *)
Definition valid_input (pass salt key : list Z) (rounds : Z) : bool :=
  negb (Z.of_nat (length pass) =? 0) && negb (Z.of_nat (length salt) =? 0)
  && (1 <=? Z.of_nat (length key)) && (Z.of_nat (length key) <=? 1024)
  && (Z.of_nat (length salt) <=? 2 ^ 20) && (1 <=? rounds).

(** The two tests of lines 101-105, as one boolean. *)
Definition rejected (pass salt key : list Z) (rounds : Z) : bool :=
  (rounds <? 1)
  || ((Z.of_nat (length pass) =? 0) || (Z.of_nat (length salt) =? 0)
      || (Z.of_nat (length key) =? 0)
      || (Z.of_nat (length key) >? BCRYPT_HASHSIZE * BCRYPT_HASHSIZE)
      || (Z.of_nat (length salt) >? Z.shiftl 1 20)).

(** The control skeleton of the loops: the exit value of [i] in
    [assemble], and what one pass of the outer loop does to
    (amt, keylen, count). *)
Fixpoint assemble_i (n : nat) (i stride count origkeylen : Z) : Z :=
  match n with
  | O => i
  | Datatypes.S n' =>
      let dest := sz (sz (i * stride) + u32 (count - 1)) in
      if dest >=? origkeylen then i
      else assemble_i n' (i + 1) stride count origkeylen
  end.

Definition idx_body (stride origkeylen : Z) (s : Z * Z * Z) : Z * Z * Z :=
  let '(amt, keylen, count) := s in
  let amt := MINIMUM amt keylen in
  let i := assemble_i (Z.to_nat amt) 0 stride count origkeylen in
  (amt, sz (keylen - i), u32 (count + 1)).

Definition idx_of (st : loop_state) : Z * Z * Z :=
  (ls_amt st, ls_keylen st, ls_count st).

(** One pass of the skeleton together with the check that this pass,
    number [k] from 0, stores exactly the indices below [K] that are
    congruent to [k] modulo the stride. *)
Definition pass_run (stride K k : Z) (s : Z * Z * Z) : bool * (Z * Z * Z) :=
  let '(amt, keylen, count) := s in
  let amt' := MINIMUM amt keylen in
  let i := assemble_i (Z.to_nat amt') 0 stride count K in
  ((count =? k + 1) && (0 <? keylen) && (1 <=? i) && (0 <=? amt')
   && (amt' <=? 32) && (i <=? keylen) && (keylen <=? K)
   && ((i - 1) * stride + k <? K) && (K <=? i * stride + k),
   (amt', sz (keylen - i), u32 (count + 1))).

Definition pass_ok (stride K k : Z) (s : Z * Z * Z) : bool :=
  fst (pass_run stride K k s).

Fixpoint idx_check (n : nat) (stride K k : Z) (s : Z * Z * Z) : bool :=
  match n with
  | O => let '(_, keylen, count) := s in (keylen =? 0) && (count =? k + 1)
  | Datatypes.S n' =>
      let '(ok, s') := pass_run stride K k s in
      ok && idx_check n' stride K (k + 1) s'
  end.

Definition keylen_ok (K : Z) : bool :=
  let s := stride_of K in
  (1 <=? s) && (s <=? 32) && (s =? (K + 31) / 32)
  && (amt_of K =? (K + s - 1) / s)
  && idx_check (Z.to_nat s) s K 0 (amt_of K, K, 1).

(** ** Buffers: basic facts *)

Lemma length_store buf i v : length (store buf i v) = length buf.
Proof. unfold store. apply length_insert. Qed.

Lemma lookup_store_eq buf i v :
  (Z.to_nat i < length buf)%nat -> store buf i v !! Z.to_nat i = Some v.
Proof. intros H. unfold store. by apply list_lookup_insert_eq. Qed.

Lemma lookup_store_ne buf i v (d : nat) :
  Z.to_nat i <> d -> store buf i v !! d = buf !! d.
Proof. intros H. unfold store. by apply list_lookup_insert_ne. Qed.

Lemma load_lookup buf i v : buf !! Z.to_nat i = Some v -> load buf i = v.
Proof. intros H. unfold load. by apply list_lookup_total_correct. Qed.

Lemma lookup_load buf i :
  (Z.to_nat i < length buf)%nat -> buf !! Z.to_nat i = Some (load buf i).
Proof. intros H. unfold load. by apply list_lookup_lookup_total_lt. Qed.

Lemma for_upto_invariant {S : Type} (P : S -> Prop) body n i (s : S) :
  (forall j s, P s -> P (body j s)) -> P s -> P (for_upto n i body s).
Proof.
  intros Hbody. revert i s.
  induction n as [|n IH]; intros i s Hs; simpl; [done|].
  apply IH, Hbody, Hs.
Qed.

Lemma for_upto_snoc {S : Type} body n i (s : S) :
  for_upto (Datatypes.S n) i body s
  = body (i + Z.of_nat n) (for_upto n i body s).
Proof.
  revert i s. induction n as [|n IH]; intros i s.
  - simpl. by rewrite Z.add_0_r.
  - change (for_upto (Datatypes.S (Datatypes.S n)) i body s)
      with (for_upto (Datatypes.S n) (i + 1) body (body i s)).
    rewrite IH.
    replace (i + 1 + Z.of_nat n) with (i + Z.of_nat (Datatypes.S n)) by lia.
    reflexivity.
Qed.

Lemma copy_out_eq cdata out :
  length out = 32%nat ->
  copy_out cdata out
  = le_bytes (load cdata 0) ++ le_bytes (load cdata 1)
    ++ le_bytes (load cdata 2) ++ le_bytes (load cdata 3)
    ++ le_bytes (load cdata 4) ++ le_bytes (load cdata 5)
    ++ le_bytes (load cdata 6) ++ le_bytes (load cdata 7).
Proof.
  intros Hlen.
  do 32 (destruct out as [|? out]; [discriminate Hlen|]).
  destruct out; [|discriminate Hlen].
  reflexivity.
Qed.

Lemma le_bytes_decode w :
  0 <= w < 2 ^ 32 ->
  Z.land w 255 + 2 ^ 8 * Z.land (Z.shiftr w 8) 255
  + 2 ^ 16 * Z.land (Z.shiftr w 16) 255
  + 2 ^ 24 * Z.land (Z.shiftr w 24) 255 = w
  /\ Z.land w 255 = w mod 2 ^ 8
  /\ Z.land (Z.shiftr w 24) 255 = w / 2 ^ 24.
Proof.
  intros Hw.
  change 255 with (Z.ones 8).
  rewrite !Z.land_ones, !Z.shiftr_div_pow2 by lia.
  change (2 ^ 8) with 256. change (2 ^ 16) with 65536.
  change (2 ^ 24) with 16777216. change (2 ^ 32) with 4294967296 in Hw.
  Z.div_mod_to_equations. lia.
Qed.

(** ** ExpensiveHash *)

Section BcryptHash.

Context {BF : Blowfish}.

Lemma length_copy_out cdata out : length (copy_out cdata out) = length out.
Proof.
  unfold copy_out, for_range.
  apply (for_upto_invariant (fun o => length o = length out)); [|done].
  intros j s Hs. by rewrite !length_store.
Qed.

Lemma length_bcrypt_hash sha2pass sha2salt out :
  length (bcrypt_hash sha2pass sha2salt out) = length out.
Proof. apply length_copy_out. Qed.

(** The digest does not depend on what the output buffer held before. *)
Lemma bcrypt_hash_indep sha2pass sha2salt out out' :
  length out = 32%nat -> length out' = 32%nat ->
  bcrypt_hash sha2pass sha2salt out = bcrypt_hash sha2pass sha2salt out'.
Proof.
  intros H H'. unfold bcrypt_hash. by rewrite !copy_out_eq.
Qed.

(** C8.  [bcrypt_hash] stores each of the eight final words least
    significant byte first: for word [i], byte [4 i] of the output is the
    low byte of the word and byte [4 i + 3] its high byte, and the four
    bytes read as a little-endian number give the word back. *)
Theorem bcrypt_hash_little_endian sha2pass sha2salt out i :
  length out = 32%nat ->
  0 <= i < BCRYPT_WORDS ->
  let w := load (bcrypt_cdata sha2pass sha2salt) i in
  let out' := bcrypt_hash sha2pass sha2salt out in
  out' !! Z.to_nat (4 * i) = Some (Z.land w 255)
  /\ out' !! Z.to_nat (4 * i + 1) = Some (Z.land (Z.shiftr w 8) 255)
  /\ out' !! Z.to_nat (4 * i + 2) = Some (Z.land (Z.shiftr w 16) 255)
  /\ out' !! Z.to_nat (4 * i + 3) = Some (Z.land (Z.shiftr w 24) 255)
  /\ (0 <= w < 2 ^ 32 ->
      load out' (4 * i) = w mod 2 ^ 8
      /\ load out' (4 * i + 3) = w / 2 ^ 24
      /\ load out' (4 * i) + 2 ^ 8 * load out' (4 * i + 1)
         + 2 ^ 16 * load out' (4 * i + 2)
         + 2 ^ 24 * load out' (4 * i + 3) = w).
Proof.
  intros Hlen Hi w out'.
  assert (Hout : out' = copy_out (bcrypt_cdata sha2pass sha2salt) out) by done.
  rewrite copy_out_eq in Hout by done.
  fold w in Hout |- *.
  assert (Hb : out' !! Z.to_nat (4 * i) = Some (Z.land w 255)
    /\ out' !! Z.to_nat (4 * i + 1) = Some (Z.land (Z.shiftr w 8) 255)
    /\ out' !! Z.to_nat (4 * i + 2) = Some (Z.land (Z.shiftr w 16) 255)
    /\ out' !! Z.to_nat (4 * i + 3) = Some (Z.land (Z.shiftr w 24) 255)).
  { unfold BCRYPT_WORDS in Hi.
    assert (Hc : i = 0 \/ i = 1 \/ i = 2 \/ i = 3
                 \/ i = 4 \/ i = 5 \/ i = 6 \/ i = 7) by lia.
    subst w. rewrite Hout.
    destruct Hc as [->|[->|[->|[->|[->|[->|[->| ->]]]]]]];
      repeat split; reflexivity. }
  destruct Hb as (H0 & H1 & H2 & H3).
  repeat split; try assumption;
    intros; rewrite ?(load_lookup _ _ _ H0), ?(load_lookup _ _ _ H1),
      ?(load_lookup _ _ _ H2), ?(load_lookup _ _ _ H3);
    by apply le_bytes_decode.
Qed.

End BcryptHash.

(** ** The control skeleton, checked for every admissible key length *)

Lemma keylen_ok_all : forallb keylen_ok (map Z.of_nat (seq 1 1024)) = true.
Proof. vm_compute. reflexivity. Qed.

Lemma keylen_ok_valid K : 1 <= K <= 1024 -> keylen_ok K = true.
Proof.
  intros HK.
  pose proof keylen_ok_all as Hall.
  rewrite forallb_forall in Hall. apply Hall.
  apply in_map_iff. exists (Z.to_nat K). split; [lia|].
  apply in_seq. lia.
Qed.

Lemma pass_run_body stride K k s :
  snd (pass_run stride K k s) = idx_body stride K s.
Proof. by destruct s as [[amt keylen] count]. Qed.

Lemma idx_check_sound n : forall stride K k s,
  idx_check n stride K k s = true ->
  (forall m : nat, (m < n)%nat ->
     pass_ok stride K (k + Z.of_nat m) (Nat.iter m (idx_body stride K) s) = true)
  /\ (let '(_, keylen, count) := Nat.iter n (idx_body stride K) s in
      keylen = 0 /\ count = k + Z.of_nat n + 1).
Proof.
  induction n as [|n IH]; intros stride K k s Hc.
  - split; [intros m Hm; lia|].
    simpl in *. destruct s as [[amt keylen] count].
    apply andb_true_iff in Hc as [H1 H2]. lia.
  - simpl in Hc.
    destruct (pass_run stride K k s) as [ok s'] eqn:Hrun.
    apply andb_true_iff in Hc as [Hok Hc].
    assert (Hs' : s' = idx_body stride K s).
    { rewrite <- pass_run_body with (k := k). by rewrite Hrun. }
    subst s'. apply IH in Hc as [Hpass Hfin].
    split.
    + intros [|m] Hm.
      * simpl. rewrite Z.add_0_r. unfold pass_ok. by rewrite Hrun.
      * rewrite Nat.iter_succ_r.
        replace (k + Z.of_nat (Datatypes.S m)) with (k + 1 + Z.of_nat m) by lia.
        apply Hpass. lia.
    + rewrite Nat.iter_succ_r.
      replace (k + Z.of_nat (Datatypes.S n) + 1)
        with (k + 1 + Z.of_nat n + 1) by lia.
      exact Hfin.
Qed.

(** ** The store loop *)

Lemma sz_small x : 0 <= x < 2 ^ 64 -> sz x = x.
Proof. intros H. unfold sz. apply Z.mod_small. exact H. Qed.

Lemma u32_small x : 0 <= x < 2 ^ 32 -> u32 x = x.
Proof. intros H. unfold u32. apply Z.mod_small. exact H. Qed.

Lemma dest_nowrap i s k :
  0 <= i <= 32 -> 1 <= s <= 32 -> 0 <= k <= 32 ->
  sz (sz (i * s) + u32 (k + 1 - 1)) = i * s + k.
Proof.
  intros Hi Hs Hk. replace (k + 1 - 1) with k by lia.
  rewrite u32_small by lia.
  rewrite (sz_small (i * s)) by nia.
  apply sz_small. nia.
Qed.

Lemma assemble_i_ge n : forall i s c K, i <= assemble_i n i s c K.
Proof.
  induction n as [|n IH]; intros i s c K; simpl; [lia|].
  destruct (_ >=? _); [lia|]. specialize (IH (i + 1) s c K). lia.
Qed.

Lemma count_occ_snoc (l : list Z) (x d : Z) :
  count_occ Z.eq_dec (l ++ [x]) d
  = (count_occ Z.eq_dec l d + if Z.eq_dec x d then 1 else 0)%nat.
Proof.
  rewrite count_occ_app. simpl. by destruct (Z.eq_dec x d).
Qed.

(** [assemble] follows the skeleton, stores [out[j]] at [j * stride + k]
    for the values [j] of its loop variable, logs each of these indices
    once, and touches nothing else. *)
Lemma assemble_spec s k K out n : forall i key log,
  1 <= s <= 32 -> 0 <= k <= 32 -> 0 <= i -> i + Z.of_nat n <= 32 ->
  K <= Z.of_nat (length key) ->
  exists key' log',
    assemble n i s (k + 1) K out key log
    = (key', assemble_i n i s (k + 1) K, log')
    /\ length key' = length key
    /\ (forall j, i <= j < assemble_i n i s (k + 1) K ->
          key' !! Z.to_nat (j * s + k) = Some (load out j))
    /\ (forall d : nat,
          (forall j, i <= j < assemble_i n i s (k + 1) K ->
             Z.to_nat (j * s + k) <> d) ->
          key' !! d = key !! d)
    /\ (forall j, i <= j < assemble_i n i s (k + 1) K ->
          count_occ Z.eq_dec log' (j * s + k)
          = Datatypes.S (count_occ Z.eq_dec log (j * s + k)))
    /\ (forall d,
          (forall j, i <= j < assemble_i n i s (k + 1) K -> j * s + k <> d) ->
          count_occ Z.eq_dec log' d = count_occ Z.eq_dec log d).
Proof.
  induction n as [|n IH]; intros i key log Hs Hk Hi Hn HK.
  - exists key, log. simpl. repeat split; intros; try lia; done.
  - cbn [assemble assemble_i].
    rewrite dest_nowrap by lia.
    destruct (i * s + k >=? K) eqn:Hdest.
    + exists key, log. repeat split; intros; try lia; done.
    + assert (Hlt : i * s + k < K) by lia.
      destruct (IH (i + 1) (store key (i * s + k) (load out i))
                  (log ++ [i * s + k])) as (key' & log' & Heq & Hlen & Ha & Hb & Hc & Hd);
        try lia.
      { rewrite length_store. lia. }
      pose proof (assemble_i_ge n (i + 1) s (k + 1) K) as Hge.
      exists key', log'. rewrite length_store in Hlen.
      split; [exact Heq|]. split; [exact Hlen|].
      split; [|split; [|split]].
      * intros j Hj. destruct (Z.eq_dec j i) as [->|Hne].
        -- rewrite Hb; [apply lookup_store_eq; nia|].
           intros j' Hj'. nia.
        -- apply Ha. lia.
      * intros d Hd'. rewrite Hb.
        -- apply lookup_store_ne. apply Hd'. lia.
        -- intros j Hj. apply Hd'. lia.
      * intros j Hj. destruct (Z.eq_dec j i) as [->|Hne].
        -- rewrite Hd; [|intros j' Hj'; nia].
           rewrite count_occ_snoc. destruct (Z.eq_dec _ _); [lia|done].
        -- rewrite Hc by lia. rewrite count_occ_snoc.
           destruct (Z.eq_dec (i * s + k) (j * s + k)); [nia|lia].
      * intros d Hd'. rewrite Hd; [|intros j Hj; apply Hd'; lia].
        rewrite count_occ_snoc.
        destruct (Z.eq_dec (i * s + k) d) as [Heq'|]; [|lia].
        exfalso. apply (Hd' i); [lia|done].
Qed.

Lemma assemble_exit n : forall i s c K out key log,
  (assemble n i s c K out key log).1.2 = assemble_i n i s c K.
Proof.
  induction n as [|n IH]; intros i s c K out key log; simpl; [done|].
  destruct (_ >=? _); [done|]. apply IH.
Qed.

Lemma assemble_log_length n : forall i s c K out key log,
  length (assemble n i s c K out key log).2
  = (length log + Z.to_nat (assemble_i n i s c K - i))%nat.
Proof.
  induction n as [|n IH]; intros i s c K out key log; simpl.
  - lia.
  - destruct (_ >=? _); [simpl; lia|].
    rewrite IH, length_app. simpl.
    pose proof (assemble_i_ge n (i + 1) s c K). lia.
Qed.

(** The outer loop runs the passes one after the other as long as the
    remaining length is positive. *)
Lemma outer_loop_iter {BF : Blowfish} hash sha2pass saltlen rounds s K n :
  forall fuel st0,
  (n <= fuel)%nat ->
  (forall m : nat, (m < n)%nat ->
     0 < ls_keylen (Nat.iter m (loop_body hash sha2pass saltlen rounds s K) st0)) ->
  ls_keylen (Nat.iter n (loop_body hash sha2pass saltlen rounds s K) st0) <= 0 ->
  outer_loop hash fuel sha2pass saltlen rounds s K st0
  = Some (Nat.iter n (loop_body hash sha2pass saltlen rounds s K) st0).
Proof.
  induction n as [|n IH]; intros fuel st0 Hf Hpos Hend.
  - simpl in Hend.
    destruct fuel; simpl; destruct (_ >? _) eqn:E; try done; lia.
  - destruct fuel as [|fuel]; [lia|].
    pose proof (Hpos 0%nat ltac:(lia)) as H0. simpl in H0.
    cbn [outer_loop]. destruct (_ >? _) eqn:E; [|lia].
    rewrite Nat.iter_succ_r. apply IH; [lia| |].
    + intros m Hm. rewrite <- Nat.iter_succ_r. apply Hpos. lia.
    + by rewrite <- Nat.iter_succ_r.
Qed.

Lemma outer_loop_short {BF : Blowfish} hash sha2pass saltlen rounds s K fuel :
  forall st0,
  (forall m : nat, (m <= fuel)%nat ->
     0 < ls_keylen (Nat.iter m (loop_body hash sha2pass saltlen rounds s K) st0)) ->
  outer_loop hash fuel sha2pass saltlen rounds s K st0 = None.
Proof.
  induction fuel as [|fuel IH]; intros st0 Hpos;
    pose proof (Hpos 0%nat ltac:(lia)) as H0; simpl in H0; cbn [outer_loop];
    destruct (_ >? _) eqn:E; try done; try lia.
  apply IH. intros m Hm. rewrite <- Nat.iter_succ_r. apply Hpos. lia.
Qed.

(** The indices [assemble] logs, in the order of the stores. *)
Lemma assemble_log n : forall i s c K out key log,
  (assemble n i s c K out key log).2
  = log ++ map (fun j : nat => sz (sz ((i + Z.of_nat j) * s) + u32 (c - 1)))
             (seq 0 (Z.to_nat (assemble_i n i s c K - i))).
Proof.
  induction n as [|n IH]; intros i s c K out key log; cbn [assemble assemble_i].
  - rewrite Z.sub_diag. simpl. by rewrite app_nil_r.
  - destruct (_ >=? _) eqn:E.
    + rewrite Z.sub_diag. simpl. by rewrite app_nil_r.
    + rewrite IH. pose proof (assemble_i_ge n (i + 1) s c K) as Hge.
      replace (Z.to_nat (assemble_i n (i + 1) s c K - i))
        with (Datatypes.S (Z.to_nat (assemble_i n (i + 1) s c K - (i + 1))))
        by lia.
      cbn [seq map]. rewrite <- app_assoc. cbn [app].
      rewrite Z.add_0_r. do 2 f_equal.
      rewrite <- seq_shift, map_map. apply map_ext. intros j.
      do 3 f_equal. lia.
Qed.

(** ** One block *)

Lemma store_app_r (l1 l2 : list Z) j v :
  0 <= j ->
  store (l1 ++ l2) (Z.of_nat (length l1) + j) v = l1 ++ store l2 j v.
Proof.
  intros Hj. unfold store.
  replace (Z.to_nat (Z.of_nat (length l1) + j))
    with (length l1 + Z.to_nat j)%nat by lia.
  apply insert_app_r.
Qed.

Lemma countsalt_stores (salt quad : list Z) a b c d :
  length quad = 4%nat ->
  let saltlen := Z.of_nat (length salt) in
  store (store (store (store (salt ++ quad) (saltlen + 0) a)
                  (saltlen + 1) b) (saltlen + 2) c) (saltlen + 3) d
  = salt ++ [a; b; c; d].
Proof.
  intros Hq saltlen. subst saltlen.
  do 4 (destruct quad as [|? quad]; [discriminate Hq|]).
  destruct quad; [|discriminate Hq].
  by rewrite !store_app_r by lia.
Qed.

Lemma memcpy_full (dst src : list Z) n :
  length src = n -> length dst = n -> memcpy dst src (Z.of_nat n) = src.
Proof.
  intros Hs Hd. unfold memcpy. rewrite Nat2Z.id.
  rewrite take_ge, drop_ge by lia. apply app_nil_r.
Qed.

Lemma memcpy_salt (salt : list Z) :
  Z.of_nat (length salt) + 4 < 2 ^ 64 ->
  memcpy (replicate (Z.to_nat (sz (Z.of_nat (length salt) + 4))) 0) salt
    (Z.of_nat (length salt))
  = salt ++ replicate 4 0.
Proof.
  intros H. unfold memcpy. rewrite sz_small by lia.
  rewrite Nat2Z.id, take_ge by lia. f_equal.
  replace (Z.to_nat (Z.of_nat (length salt) + 4)) with (length salt + 4)%nat by lia.
  rewrite drop_replicate. f_equal. lia.
Qed.

Section Derivation.

Context {BF : Blowfish}.
Variable hash : list Z -> list Z.

Lemma length_xor_into out tmpout : length (xor_into out tmpout) = length out.
Proof.
  unfold xor_into, for_range.
  apply (for_upto_invariant (fun o => length o = length out)); [|done].
  intros j s Hs. by rewrite length_store.
Qed.

Lemma rounds_lengths sha2pass lo hi (s : list Z * list Z * list Z) :
  length s.1.2 = 32%nat -> length s.2 = 32%nat ->
  let s' := for_range lo hi (fun _ => round_body hash sha2pass) s in
  length s'.1.2 = 32%nat /\ length s'.2 = 32%nat.
Proof.
  intros Ht Ho. unfold for_range.
  apply (for_upto_invariant
           (fun x : list Z * list Z * list Z =>
              length x.1.2 = 32%nat /\ length x.2 = 32%nat)); [|done].
  intros _ [[a t] o] [Ht' Ho']. cbn [fst snd] in *.
  unfold round_body. cbn [fst snd].
  by rewrite length_xor_into, length_bcrypt_hash.
Qed.

Lemma gen_block_eq sha2pass salt rounds count quad tmpout out :
  length quad = 4%nat -> length tmpout = 32%nat -> length out = 32%nat ->
  gen_block hash sha2pass (Z.of_nat (length salt)) rounds count
    (salt ++ quad) tmpout out
  = block_of hash sha2pass salt rounds count.
Proof.
  intros Hq Ht Ho. unfold gen_block, block_of.
  rewrite countsalt_stores by done. fold (be32 count).
  set (sha2salt := citadel_crypto_hash_sha512 hash _ _).
  rewrite (bcrypt_hash_indep sha2pass sha2salt tmpout (replicate 32 0))
    by (done || by rewrite length_replicate).
  set (tmp := bcrypt_hash sha2pass sha2salt _).
  change BCRYPT_HASHSIZE with (Z.of_nat 32).
  rewrite memcpy_full;
    [|by unfold tmp; rewrite length_bcrypt_hash, length_replicate|done].
  by destruct (for_range 1 rounds _ _) as [[a t] o].
Qed.

Lemma pbkdf_block_state_eq pass salt rounds count :
  Z.of_nat (length salt) + 4 < 2 ^ 64 ->
  pbkdf_block_state hash pass salt rounds count
  = block_of hash (citadel_crypto_hash_sha512 hash pass (Z.of_nat (length pass)))
      salt rounds count.
Proof.
  intros H. unfold pbkdf_block_state. rewrite memcpy_salt by done.
  apply gen_block_eq; by rewrite ?length_replicate.
Qed.

Lemma block_of_lengths sha2pass salt rounds count :
  let b := block_of hash sha2pass salt rounds count in
  length b.1.2 = 32%nat /\ length b.2 = 32%nat.
Proof.
  unfold block_of. cbn [fst snd].
  apply (rounds_lengths sha2pass 1 rounds);
    cbn [fst snd]; by rewrite length_bcrypt_hash, length_replicate.
Qed.

Lemma xor_into_eq (out tmpout : list Z) :
  length out = 32%nat -> length tmpout = 32%nat ->
  xor_into out tmpout = zip_with Z.lxor out tmpout.
Proof.
  intros Ho Ht.
  do 32 (destruct out as [|? out]; [discriminate Ho|]).
  destruct out; [|discriminate Ho].
  do 32 (destruct tmpout as [|? tmpout]; [discriminate Ht|]).
  destruct tmpout; [|discriminate Ht].
  reflexivity.
Qed.

(** One more round: the block is XORed with one more [bcrypt_hash]
    output, computed from the digest of the previous one. *)
Lemma block_of_succ sha2pass salt rounds count :
  1 <= rounds ->
  let b := block_of hash sha2pass salt rounds count in
  let b' := block_of hash sha2pass salt (rounds + 1) count in
  b'.1.2 = bcrypt_hash sha2pass
             (citadel_crypto_hash_sha512 hash b.1.2 BCRYPT_HASHSIZE) b.1.2
  /\ b'.2 = zip_with Z.lxor b.2 b'.1.2.
Proof.
  intros Hr.
  pose proof (block_of_lengths sha2pass salt rounds count) as [Hl1 Hl2].
  cbv zeta in *. revert Hl1 Hl2. unfold block_of. cbn [fst snd].
  unfold for_range.
  replace (Z.to_nat (rounds + 1 - 1))
    with (Datatypes.S (Z.to_nat (rounds - 1))) by lia.
  rewrite for_upto_snoc.
  destruct (for_upto (Z.to_nat (rounds - 1)) 1 _ _) as [[a t] o].
  cbn [fst snd round_body]. intros Hl1 Hl2.
  split; [done|].
  apply xor_into_eq; [done|]. by rewrite length_bcrypt_hash.
Qed.

Lemma block_state_shape pass salt rounds count :
  Z.of_nat (length salt) <= 2 ^ 20 ->
  let b := pbkdf_block_state hash pass salt rounds count in
  b.1.1.1 = salt ++ be32 count
  /\ length b.1.2 = 32%nat /\ length b.2 = 32%nat.
Proof.
  intros Hsalt. cbv zeta. rewrite pbkdf_block_state_eq by lia.
  split; [done|]. apply block_of_lengths.
Qed.

End Derivation.

(** ** The passes of the outer loop *)

(** Boolean comparisons in the context, as propositions. *)
Ltac zb :=
  repeat match goal with
  | H : (_ <? _) = true |- _ => apply Z.ltb_lt in H
  | H : (_ <? _) = false |- _ => apply Z.ltb_ge in H
  | H : (_ <=? _) = true |- _ => apply Z.leb_le in H
  | H : (_ <=? _) = false |- _ => apply Z.leb_gt in H
  | H : (_ =? _) = true |- _ => apply Z.eqb_eq in H
  | H : (_ =? _) = false |- _ => apply Z.eqb_neq in H
  end.

Lemma valid_input_spec pass salt key rounds :
  valid_input pass salt key rounds = true ->
  pass <> [] /\ salt <> []
  /\ 1 <= Z.of_nat (length key) <= 1024
  /\ Z.of_nat (length salt) <= 2 ^ 20 /\ 1 <= rounds.
Proof.
  unfold valid_input. rewrite !andb_true_iff, !negb_true_iff.
  intros (((((Hp & Hs) & Hk1) & Hk2) & Hs2) & Hr).
  repeat split; try lia.
  - intros ->. simpl in Hp. discriminate.
  - intros ->. simpl in Hs. discriminate.
Qed.

Lemma stride_facts K :
  1 <= K <= 1024 ->
  1 <= stride_of K <= 32
  /\ stride_of K = (K + 31) / 32
  /\ amt_of K = (K + stride_of K - 1) / stride_of K.
Proof.
  intros HK. pose proof (keylen_ok_valid K HK) as H. unfold keylen_ok in H.
  rewrite !andb_true_iff in H. zb. lia.
Qed.

Section Passes.

Context {BF : Blowfish}.
Variable hash : list Z -> list Z.
Variables (e : env) (pass salt key : list Z) (rounds : Z).

Let K := Z.of_nat (length key).
Let s := stride_of K.
Let saltlen := Z.of_nat (length salt).
Let sha2pass := citadel_crypto_hash_sha512 hash pass (Z.of_nat (length pass)).
Let body := loop_body hash sha2pass saltlen rounds s K.
Let st (k : nat) := Nat.iter k body (loop_init e salt key).
Let idx (k : nat) := Nat.iter k (idx_body s K) (amt_of K, K, 1).

Hypothesis HK : 1 <= K <= 1024.
Hypothesis Hsalt : saltlen <= 2 ^ 20.

Lemma loop_body_idx st0 :
  idx_of (body st0) = idx_body s K (idx_of st0).
Proof.
  unfold body, loop_body, idx_of, idx_body.
  destruct (gen_block _ _ _ _ _ _ _ _) as [[[cs ss] tt] oo].
  rewrite <- (assemble_exit _ _ _ _ _ oo (ls_key st0) (ls_key_stores st0)).
  by destruct (assemble _ _ _ _ _ _ _ _) as [[key' i] log].
Qed.

Lemma idx_st k : idx_of (st k) = idx k.
Proof.
  induction k as [|k IH]; [done|].
  change (st (Datatypes.S k)) with (body (st k)).
  change (idx (Datatypes.S k)) with (idx_body s K (idx k)).
  by rewrite loop_body_idx, IH.
Qed.

Lemma skeleton_facts :
  (forall m : nat, (m < Z.to_nat s)%nat ->
     pass_ok s K (Z.of_nat m) (idx m) = true)
  /\ (idx (Z.to_nat s)).1.2 = 0
  /\ (idx (Z.to_nat s)).2 = s + 1.
Proof.
  pose proof (keylen_ok_valid K HK) as H. unfold keylen_ok in H.
  fold s in H. rewrite !andb_true_iff in H.
  destruct H as [Hs Hc]. apply idx_check_sound in Hc as [Hp Hf].
  split; [exact Hp|]. fold (idx (Z.to_nat s)) in Hf.
  destruct (idx (Z.to_nat s)) as [[a kl] c]. simpl. lia.
Qed.

(** What the skeleton check says about pass [k] of the real loop. *)
Lemma pass_facts (k : nat) :
  (k < Z.to_nat s)%nat ->
  let amt' := MINIMUM (ls_amt (st k)) (ls_keylen (st k)) in
  let i := assemble_i (Z.to_nat amt') 0 s (Z.of_nat k + 1) K in
  ls_count (st k) = Z.of_nat k + 1
  /\ 0 < ls_keylen (st k) <= K
  /\ 1 <= i <= ls_keylen (st k)
  /\ 0 <= amt' <= 32
  /\ (i - 1) * s + Z.of_nat k < K <= i * s + Z.of_nat k.
Proof.
  intros Hk.
  destruct skeleton_facts as [Hp _]. specialize (Hp k Hk).
  rewrite <- idx_st in Hp. unfold pass_ok, pass_run, idx_of in Hp.
  cbn [fst snd] in Hp. rewrite !andb_true_iff in Hp.
  destruct Hp as ((((((((Hc & H1) & H2) & H3) & H4) & H5) & H6) & H7) & H8).
  apply Z.eqb_eq in Hc. rewrite Hc in *.
  cbv zeta. lia.
Qed.

Lemma body_eq st0 quad :
  length quad = 4%nat -> ls_countsalt st0 = salt ++ quad ->
  length (ls_tmpout st0) = 32%nat -> length (ls_out st0) = 32%nat ->
  let b := pbkdf_block_state hash pass salt rounds (ls_count st0) in
  let amt' := MINIMUM (ls_amt st0) (ls_keylen st0) in
  let a := assemble (Z.to_nat amt') 0 s (ls_count st0) K b.2
             (ls_key st0) (ls_key_stores st0) in
  ls_countsalt (body st0) = b.1.1.1
  /\ ls_sha2salt (body st0) = b.1.1.2
  /\ ls_tmpout (body st0) = b.1.2
  /\ ls_out (body st0) = b.2
  /\ ls_key (body st0) = a.1.1
  /\ ls_key_stores (body st0) = a.2.
Proof.
  intros Hq Hcs Ht Ho. unfold body, loop_body.
  rewrite Hcs. unfold saltlen. rewrite gen_block_eq by done.
  unfold sha2pass. rewrite <- pbkdf_block_state_eq by (fold saltlen; lia).
  destruct (pbkdf_block_state _ _ _ _ _) as [[[cs ss] tt] oo].
  cbn [fst snd].
  by destruct (assemble _ _ _ _ _ _ _ _) as [[key' i] log].
Qed.

Lemma mod_stride j k :
  0 <= k < s -> (j * s + k) mod s = k /\ (0 <= j -> (j * s + k) / s = j).
Proof.
  intros Hk. split.
  - rewrite Z.add_comm, Z_mod_plus_full. by apply Z.mod_small.
  - intros Hj. rewrite Z.add_comm, Z.div_add by lia.
    rewrite Z.div_small by lia. lia.
Qed.

(** After [k] passes the key holds, at every index whose residue modulo
    the stride is below [k], the byte of the block for that residue; the
    other bytes are as the caller left them; and each of the former
    indices has been stored to once. *)
Lemma pass_inv (k : nat) :
  (k <= Z.to_nat s)%nat ->
  length (ls_out (st k)) = 32%nat
  /\ length (ls_tmpout (st k)) = 32%nat
  /\ (exists quad, length quad = 4%nat /\ ls_countsalt (st k) = salt ++ quad)
  /\ length (ls_key (st k)) = length key
  /\ (forall d, 0 <= d < K ->
        ls_key (st k) !! Z.to_nat d
        = if d mod s <? Z.of_nat k
          then Some (load (pbkdf_block hash pass salt rounds (d mod s + 1)) (d / s))
          else key !! Z.to_nat d)
  /\ (forall d,
        count_occ Z.eq_dec (ls_key_stores (st k)) d
        = if (0 <=? d) && (d <? K) && (d mod s <? Z.of_nat k)
          then 1%nat else 0%nat).
Proof.
  pose proof (stride_facts K HK) as (Hs & _).
  induction k as [|k IH]; intros Hk.
  - change (st 0%nat) with (loop_init e salt key). unfold loop_init.
    cbn [ls_out ls_tmpout ls_countsalt ls_key ls_key_stores].
    unfold uninit. rewrite !length_map, !length_seq.
    repeat split; try done.
    + exists (replicate 4 0). split; [done|]. apply memcpy_salt.
      fold saltlen. lia.
    + intros d Hd. pose proof (Z.mod_pos_bound d s ltac:(lia)).
      destruct (_ <? _) eqn:E; [zb; lia|done].
    + intros d. simpl. destruct (0 <=? d) eqn:E0; [|done].
      destruct (d <? K); [|done].
      pose proof (Z.mod_pos_bound d s ltac:(lia)).
      destruct (_ <? _) eqn:E; [zb; lia|done].
  - destruct IH as (Ho & Ht & (quad & Hq & Hcs) & Hlen & Hkey & Hlog); [lia|].
    pose proof (pass_facts k ltac:(lia)) as (Hc & Hkl & Hi & Hamt & Hcover).
    pose proof (body_eq (st k) quad Hq Hcs Ht Ho) as (Ecs & _ & Et & Eo & Ek & El).
    pose proof (block_state_shape hash pass salt rounds (ls_count (st k)) Hsalt)
      as (Scs & St & So).
    rewrite Hc in Ecs, Et, Eo, Ek, El, Scs, St, So.
    change (st (Datatypes.S k)) with (body (st k)).
    rewrite Ecs, Et, Eo, Ek, El.
    set (amt' := MINIMUM (ls_amt (st k)) (ls_keylen (st k))) in *.
    set (blk := pbkdf_block_state hash pass salt rounds (Z.of_nat k + 1)) in *.
    destruct (assemble_spec s (Z.of_nat k) K blk.2 (Z.to_nat amt') 0
                (ls_key (st k)) (ls_key_stores (st k)))
      as (key' & log' & Heq & Hlen' & Ha & Hb & Hcnt & Hoth); try lia.
    rewrite Heq. cbn [fst snd].
    set (i' := assemble_i (Z.to_nat amt') 0 s (Z.of_nat k + 1) K) in *.
    split; [exact So|]. split; [exact St|].
    split; [exists (be32 (Z.of_nat k + 1)); by split|].
    split; [congruence|].
    split.
    + intros d Hd.
      pose proof (Z.mod_pos_bound d s ltac:(lia)) as Hm.
      pose proof (Z.div_mod d s ltac:(lia)) as Hdm.
      destruct (Z.eq_dec (d mod s) (Z.of_nat k)) as [Em|Em].
      * assert (Hj : 0 <= d / s < i').
        { split; [apply Z.div_pos; lia|]. nia. }
        specialize (Ha (d / s) Hj).
        replace (d / s * s + Z.of_nat k) with d in Ha by lia.
        rewrite Ha. destruct (_ <? _) eqn:E; [|zb; lia].
        unfold pbkdf_block. rewrite Em. done.
      * rewrite Hb.
        -- rewrite Hkey by done.
           destruct (d mod s <? Z.of_nat k) eqn:E1;
             destruct (d mod s <? Z.of_nat (Datatypes.S k)) eqn:E2;
             try done; zb; lia.
        -- intros j Hj Heq'. apply Em.
           assert (d = j * s + Z.of_nat k) as -> by nia.
           apply mod_stride. lia.
    + intros d.
      destruct (decide (0 <= d < K /\ d mod s = Z.of_nat k)) as [[Hd Em]|Hn].
      * pose proof (Z.div_mod d s ltac:(lia)) as Hdm.
        assert (Hj : 0 <= d / s < i').
        { split; [apply Z.div_pos; lia|]. nia. }
        specialize (Hcnt (d / s) Hj).
        replace (d / s * s + Z.of_nat k) with d in Hcnt by lia.
        rewrite Hcnt, Hlog.
        destruct (0 <=? d) eqn:E0; [|zb; lia].
        destruct (d <? K) eqn:E1; [|zb; lia].
        destruct (d mod s <? Z.of_nat k) eqn:E2; [zb; lia|].
        destruct (d mod s <? Z.of_nat (Datatypes.S k)) eqn:E3; [done|zb; lia].
      * rewrite Hoth.
        -- rewrite Hlog.
           destruct (0 <=? d) eqn:E0; [|done].
           destruct (d <? K) eqn:E1; [|done].
           destruct (d mod s <? Z.of_nat k) eqn:E2;
             destruct (d mod s <? Z.of_nat (Datatypes.S k)) eqn:E3;
             try done; zb; lia.
        -- intros j Hj Heq'. apply Hn. subst d.
           split; [nia|]. apply mod_stride. lia.
Qed.

Lemma pass_keylen (k : nat) :
  (k < Z.to_nat s)%nat ->
  ls_keylen (st (Datatypes.S k))
  = ls_keylen (st k)
    - assemble_i (Z.to_nat (MINIMUM (ls_amt (st k)) (ls_keylen (st k)))) 0 s
        (Z.of_nat k + 1) K.
Proof.
  intros Hk.
  pose proof (pass_facts k Hk) as (Hc & Hkl & Hi & Hamt & Hcover).
  pose proof (loop_body_idx (st k)) as Hb.
  change (st (Datatypes.S k)) with (body (st k)).
  unfold idx_of, idx_body in Hb. rewrite Hc in Hb.
  injection Hb as _ Hb _. rewrite Hb. apply sz_small. lia.
Qed.

Lemma pass_stores (k : nat) :
  (k < Z.to_nat s)%nat ->
  length (ls_key_stores (st (Datatypes.S k)))
  = (length (ls_key_stores (st k))
     + Z.to_nat (assemble_i
                   (Z.to_nat (MINIMUM (ls_amt (st k)) (ls_keylen (st k)))) 0 s
                   (Z.of_nat k + 1) K))%nat.
Proof.
  intros Hk.
  pose proof (pass_facts k Hk) as (Hc & _).
  change (st (Datatypes.S k)) with (body (st k)).
  unfold body, loop_body.
  destruct (gen_block _ _ _ _ _ _ _ _) as [[[cs ss] tt] oo].
  rewrite Hc.
  pose proof (assemble_log_length
                (Z.to_nat (MINIMUM (ls_amt (st k)) (ls_keylen (st k)))) 0 s
                (Z.of_nat k + 1) K oo (ls_key (st k)) (ls_key_stores (st k))) as Hl.
  destruct (assemble _ _ _ _ _ _ _ _) as [[key' i] log].
  cbn [ls_key_stores]. cbn [snd] in Hl. rewrite Hl. lia.
Qed.

Lemma stores_total (k : nat) :
  (k <= Z.to_nat s)%nat ->
  ls_keylen (st k) + Z.of_nat (length (ls_key_stores (st k))) = K.
Proof.
  induction k as [|k IH]; intros Hk.
  - change (st 0%nat) with (loop_init e salt key). simpl. fold K. lia.
  - pose proof (pass_facts k ltac:(lia)) as (_ & _ & Hi & _).
    rewrite pass_keylen, pass_stores by lia.
    specialize (IH ltac:(lia)). lia.
Qed.

Lemma calls_count (k : nat) :
  1 <= rounds ->
  ls_sha512_calls (st k) = (1 + k * Z.to_nat rounds)%nat
  /\ ls_bcrypt_calls (st k) = (k * Z.to_nat rounds)%nat.
Proof.
  intros Hr. induction k as [|k [IH1 IH2]]; [done|].
  change (st (Datatypes.S k)) with (body (st k)).
  unfold body, loop_body.
  destruct (gen_block _ _ _ _ _ _ _ _) as [[[cs ss] tt] oo].
  destruct (assemble _ _ _ _ _ _ _ _) as [[key' i] log].
  cbn [ls_sha512_calls ls_bcrypt_calls]. rewrite IH1, IH2. lia.
Qed.

(** After a pass the salt digest array holds the last digest of that
    pass and the block from [calloc] holds the salt and the counter. *)
Lemma pass_buffers (k : nat) :
  (k < Z.to_nat s)%nat ->
  ls_sha2salt (st (Datatypes.S k))
  = pbkdf_last_sha2salt hash pass salt rounds (Z.of_nat k + 1)
  /\ ls_countsalt (st (Datatypes.S k)) = salt ++ be32 (Z.of_nat k + 1).
Proof.
  intros Hk.
  destruct (pass_inv k ltac:(lia)) as (Ho & Ht & (quad & Hq & Hcs) & _).
  pose proof (pass_facts k Hk) as (Hc & _).
  pose proof (body_eq (st k) quad Hq Hcs Ht Ho) as (Ecs & Ess & _).
  pose proof (block_state_shape hash pass salt rounds (ls_count (st k)) Hsalt)
    as (Scs & _).
  rewrite Hc in Ecs, Ess, Scs.
  change (st (Datatypes.S k)) with (body (st k)).
  rewrite Ecs, Ess. by split.
Qed.

Lemma final_buffers :
  ls_sha2salt (st (Z.to_nat s)) = pbkdf_last_sha2salt hash pass salt rounds s
  /\ ls_countsalt (st (Z.to_nat s)) = salt ++ be32 s.
Proof.
  pose proof (stride_facts K HK) as (Hs & _). fold s in Hs.
  destruct (pass_buffers (Z.to_nat s - 1) ltac:(lia)) as [H1 H2].
  replace (Z.of_nat (Z.to_nat s - 1) + 1) with s in H1, H2 by lia.
  replace (Datatypes.S (Z.to_nat s - 1)) with (Z.to_nat s) in H1, H2 by lia.
  by split.
Qed.

Lemma final_keylen : ls_keylen (st (Z.to_nat s)) = 0.
Proof.
  destruct skeleton_facts as (_ & Hf & _).
  rewrite <- idx_st in Hf. exact Hf.
Qed.

Lemma final_count : ls_count (st (Z.to_nat s)) = s + 1.
Proof.
  destruct skeleton_facts as (_ & _ & Hf).
  rewrite <- idx_st in Hf. exact Hf.
Qed.

(** With fuel for [stride] passes the outer loop ends, after exactly that
    many passes. *)
Lemma run_loop fuel :
  (Z.to_nat s <= fuel)%nat ->
  outer_loop hash fuel sha2pass saltlen rounds s K (loop_init e salt key)
  = Some (st (Z.to_nat s)).
Proof.
  intros Hf. apply outer_loop_iter; [done| |].
  - intros m Hm. apply (pass_facts m Hm).
  - change (ls_keylen (st (Z.to_nat s)) <= 0). rewrite final_keylen. lia.
Qed.

(** The running output block after pass [k] is the block for counter
    [k + 1]. *)
Lemma pass_out (k : nat) :
  (k < Z.to_nat s)%nat ->
  ls_out (st (Datatypes.S k)) = pbkdf_block hash pass salt rounds (Z.of_nat k + 1).
Proof.
  intros Hk.
  destruct (pass_inv k ltac:(lia)) as (Ho & Ht & (quad & Hq & Hcs) & _).
  pose proof (pass_facts k Hk) as (Hc & _).
  pose proof (body_eq (st k) quad Hq Hcs Ht Ho) as (_ & _ & _ & Eo & _).
  rewrite Hc in Eo. exact Eo.
Qed.

(** Pass [k] stores to [k], [k + stride], [k + 2 stride], ... in this
    order, as many times as there are such indices below [keylen]. *)
Lemma pass_log (k : nat) :
  (k < Z.to_nat s)%nat ->
  let n := (K - Z.of_nat k + s - 1) / s in
  1 <= n <= 32
  /\ assemble_i (Z.to_nat (MINIMUM (ls_amt (st k)) (ls_keylen (st k)))) 0 s
       (Z.of_nat k + 1) K = n
  /\ ls_key_stores (st (Datatypes.S k))
     = ls_key_stores (st k)
       ++ map (fun j : nat => Z.of_nat j * s + Z.of_nat k) (seq 0 (Z.to_nat n)).
Proof.
  intros Hk n.
  pose proof (stride_facts K HK) as (Hs & Hs' & _). fold s in Hs, Hs'.
  pose proof (pass_facts k Hk) as (Hc & Hkl & Hi & Hamt & Hcover).
  cbv zeta in Hi, Hamt, Hcover.
  set (i := assemble_i _ _ _ _ _) in *.
  assert (Hn : i = n).
  { unfold n. apply Z.div_unique with (r := K - Z.of_nat k + s - 1 - s * i); lia. }
  assert (H32 : n <= 32).
  { unfold n. apply Z.lt_succ_r. apply Z.div_lt_upper_bound; [lia|].
    pose proof (Z.div_mod (K + 31) 32 ltac:(lia)).
    pose proof (Z.mod_pos_bound (K + 31) 32 ltac:(lia)). lia. }
  split; [lia|]. split; [exact Hn|].
  change (st (Datatypes.S k)) with (body (st k)).
  unfold body, loop_body.
  destruct (gen_block _ _ _ _ _ _ _ _) as [[[cs ss] tt] oo].
  rewrite Hc.
  pose proof (assemble_log
                (Z.to_nat (MINIMUM (ls_amt (st k)) (ls_keylen (st k)))) 0 s
                (Z.of_nat k + 1) K oo (ls_key (st k)) (ls_key_stores (st k))) as Hl.
  destruct (assemble _ _ _ _ _ _ _ _) as [[key' i0] log].
  cbn [ls_key_stores]. cbn [snd] in Hl. rewrite Hl.
  fold i. rewrite Hn, Z.sub_0_r. f_equal.
  apply map_ext_in. intros j Hj. apply in_seq in Hj.
  rewrite Z.add_0_l. apply dest_nowrap; lia.
Qed.

(** The log after [k] passes: pass after pass, the destinations
    [i * stride + (count - 1)] in the order of the stores. *)
Lemma stores_upto (k : nat) :
  (k <= Z.to_nat s)%nat ->
  ls_key_stores (st k)
  = flat_map
      (fun c : nat =>
         map (fun i : nat => Z.of_nat i * s + Z.of_nat c)
           (seq 0 (Z.to_nat ((K - Z.of_nat c + s - 1) / s))))
      (seq 0 k).
Proof.
  induction k as [|k IH]; intros Hk; [done|].
  destruct (pass_log k ltac:(lia)) as (_ & _ & Hl).
  rewrite Hl, IH by lia.
  rewrite seq_S, flat_map_app. cbn [flat_map Init.Nat.add].
  by rewrite app_nil_r.
Qed.

End Passes.

(** ** The whole call *)

Lemma valid_input_lengths pass salt key rounds :
  valid_input pass salt key rounds = true ->
  1 <= Z.of_nat (length pass)
  /\ 1 <= Z.of_nat (length salt) <= 2 ^ 20
  /\ 1 <= Z.of_nat (length key) <= 1024
  /\ 1 <= rounds.
Proof.
  intros H. apply valid_input_spec in H as (Hp & Hs & Hk & Hs' & Hr).
  destruct pass; [done|]. destruct salt; [done|]. simpl length in *. lia.
Qed.

Lemma rejected_valid pass salt key rounds :
  rejected pass salt key rounds = negb (valid_input pass salt key rounds).
Proof.
  unfold rejected, valid_input.
  change (BCRYPT_HASHSIZE * BCRYPT_HASHSIZE) with 1024.
  change (Z.shiftl 1 20) with (2 ^ 20).
  rewrite !Z.gtb_ltb.
  rewrite !negb_andb, !negb_involutive.
  rewrite (Z.leb_antisym 1024 (Z.of_nat (length key))).
  rewrite (Z.leb_antisym (2 ^ 20) (Z.of_nat (length salt))).
  rewrite (Z.leb_antisym rounds 1), !negb_involutive.
  replace (negb (1 <=? Z.of_nat (length key)))
    with (Z.of_nat (length key) =? 0).
  2:{ destruct (_ =? _) eqn:E1; destruct (_ <=? _) eqn:E2; zb; try done; lia. }
  destruct (rounds <? 1), (Z.of_nat (length pass) =? 0),
    (Z.of_nat (length salt) =? 0), (Z.of_nat (length key) =? 0),
    (1024 <? Z.of_nat (length key)), (2 ^ 20 <? Z.of_nat (length salt));
    reflexivity.
Qed.

Section Call.

Context {BF : Blowfish}.
Variable hash : list Z -> list Z.

(** Every failure leaves through the label [bad]. *)
Lemma pbkdf_rejects fuel e pass salt key rounds :
  valid_input pass salt key rounds = false \/ calloc_ok e = false ->
  citadel_bcrypt_pbkdf hash fuel e pass salt key rounds
  = Some (bad e key (Z.of_nat (length key))).
Proof.
  intros H. unfold citadel_bcrypt_pbkdf.
  pose proof (rejected_valid pass salt key rounds) as Hr. unfold rejected in Hr.
  destruct (rounds <? 1); [done|]. rewrite orb_false_l in Hr. rewrite Hr.
  destruct (valid_input pass salt key rounds); [|done].
  destruct H as [H|H]; [done|]. by rewrite H.
Qed.

(** A valid call whose allocation succeeds runs [stride] passes and
    returns 0. *)
Lemma pbkdf_accepts fuel e pass salt key rounds :
  valid_input pass salt key rounds = true -> calloc_ok e = true ->
  (Z.to_nat (stride_of (Z.of_nat (length key))) <= fuel)%nat ->
  let K := Z.of_nat (length key) in
  let sha2pass := citadel_crypto_hash_sha512 hash pass (Z.of_nat (length pass)) in
  let st := Nat.iter (Z.to_nat (stride_of K))
              (loop_body hash sha2pass (Z.of_nat (length salt)) rounds
                 (stride_of K) K)
              (loop_init e salt key) in
  citadel_bcrypt_pbkdf hash fuel e pass salt key rounds
  = Some {| ret := 0;
            r_key := ls_key st;
            r_sha2pass := sha2pass;
            r_sha2salt := ls_sha2salt st;
            r_out := explicit_bzero (ls_out st);
            r_tmpout := explicit_bzero (ls_tmpout st);
            r_freed := Some (ls_countsalt st);
            r_count := ls_count st;
            r_sha512_calls := ls_sha512_calls st;
            r_bcrypt_calls := ls_bcrypt_calls st;
            r_key_stores := ls_key_stores st |}.
Proof.
  intros Hv Hc Hf K sha2pass st.
  pose proof (valid_input_lengths _ _ _ _ Hv) as (Hp & Hs & Hk & Hr).
  unfold citadel_bcrypt_pbkdf.
  pose proof (rejected_valid pass salt key rounds) as Hrj.
  unfold rejected in Hrj. rewrite Hv in Hrj.
  destruct (rounds <? 1) eqn:E; [zb; lia|]. rewrite orb_false_l in Hrj.
  rewrite Hrj, Hc. cbn [negb].
  by rewrite (run_loop hash e pass salt key rounds) by (done || lia).
Qed.

(** Summary of a valid call: where every key byte comes from, that each
    index is stored to once, how many passes were made, and what is left
    in the stack arrays. *)
Lemma pbkdf_success fuel e pass salt key rounds :
  valid_input pass salt key rounds = true -> calloc_ok e = true ->
  (Z.to_nat (stride_of (Z.of_nat (length key))) <= fuel)%nat ->
  let K := Z.of_nat (length key) in
  let s := stride_of K in
  exists r,
    citadel_bcrypt_pbkdf hash fuel e pass salt key rounds = Some r
    /\ ret r = 0
    /\ length (r_key r) = length key
    /\ (forall d, 0 <= d < K ->
          r_key r !! Z.to_nat d
          = Some (load (pbkdf_block hash pass salt rounds (d mod s + 1)) (d / s)))
    /\ (forall d, count_occ Z.eq_dec (r_key_stores r) d
                  = if (0 <=? d) && (d <? K) then 1%nat else 0%nat)
    /\ length (r_key_stores r) = length key
    /\ r_count r = s + 1
    /\ r_out r = replicate 32 0 /\ r_tmpout r = replicate 32 0
    /\ r_sha2pass r = hash pass
    /\ r_sha512_calls r = (1 + Z.to_nat s * Z.to_nat rounds)%nat
    /\ r_bcrypt_calls r = (Z.to_nat s * Z.to_nat rounds)%nat
    /\ r_sha2salt r = pbkdf_last_sha2salt hash pass salt rounds s
    /\ r_freed r = Some (salt ++ be32 s).
Proof.
  intros Hv Hc Hf K s.
  pose proof (valid_input_lengths _ _ _ _ Hv) as (Hp & Hs & HK & Hr).
  assert (Hsalt : Z.of_nat (length salt) <= 2 ^ 20) by lia.
  assert (Hs1 : 1 <= s <= 32) by apply (stride_facts _ HK).
  set (sha2pass := citadel_crypto_hash_sha512 hash pass (Z.of_nat (length pass))).
  set (st := Nat.iter (Z.to_nat s)
               (loop_body hash sha2pass (Z.of_nat (length salt)) rounds s K)
               (loop_init e salt key)).
  assert (Hinv :
    length (ls_out st) = 32%nat /\ length (ls_tmpout st) = 32%nat
    /\ length (ls_key st) = length key
    /\ (forall d, 0 <= d < K ->
          ls_key st !! Z.to_nat d
          = if d mod s <? Z.of_nat (Z.to_nat s)
            then Some (load (pbkdf_block hash pass salt rounds (d mod s + 1)) (d / s))
            else key !! Z.to_nat d)
    /\ (forall d, count_occ Z.eq_dec (ls_key_stores st) d
          = if (0 <=? d) && (d <? K) && (d mod s <? Z.of_nat (Z.to_nat s))
            then 1%nat else 0%nat)).
  { pose proof (pass_inv hash e pass salt key rounds HK Hsalt (Z.to_nat s)
                  ltac:(done)) as (Ho & Ht & _ & Hlen & Hkey & Hlog).
    repeat split; assumption. }
  destruct Hinv as (Ho & Ht & Hlen & Hkey & Hlog).
  assert (Htot : ls_keylen st + Z.of_nat (length (ls_key_stores st)) = K)
    by exact (stores_total hash e pass salt key rounds HK (Z.to_nat s) ltac:(done)).
  assert (Hfk : ls_keylen st = 0)
    by exact (final_keylen hash e pass salt key rounds HK).
  assert (Hfc : ls_count st = s + 1)
    by exact (final_count hash e pass salt key rounds HK).
  assert (Hcalls : ls_sha512_calls st = (1 + Z.to_nat s * Z.to_nat rounds)%nat
                   /\ ls_bcrypt_calls st = (Z.to_nat s * Z.to_nat rounds)%nat)
    by exact (calls_count hash e pass salt key rounds (Z.to_nat s) Hr).
  assert (Hbufs : ls_sha2salt st = pbkdf_last_sha2salt hash pass salt rounds s
                  /\ ls_countsalt st = salt ++ be32 s)
    by exact (final_buffers hash e pass salt key rounds HK Hsalt).
  exists {| ret := 0;
            r_key := ls_key st;
            r_sha2pass := sha2pass;
            r_sha2salt := ls_sha2salt st;
            r_out := explicit_bzero (ls_out st);
            r_tmpout := explicit_bzero (ls_tmpout st);
            r_freed := Some (ls_countsalt st);
            r_count := ls_count st;
            r_sha512_calls := ls_sha512_calls st;
            r_bcrypt_calls := ls_bcrypt_calls st;
            r_key_stores := ls_key_stores st |}.
  split; [by apply pbkdf_accepts|].
  cbn [ret r_key r_key_stores r_count r_out r_tmpout r_sha2pass
         r_sha512_calls r_bcrypt_calls r_sha2salt r_freed].
  split; [done|]. split; [done|].
  split.
  { intros d Hd. rewrite Hkey by done.
    pose proof (Z.mod_pos_bound d s ltac:(lia)).
    destruct (_ <? _) eqn:E; [done|zb; lia]. }
  split.
  { intros d. rewrite Hlog.
    destruct (0 <=? d) eqn:E0; [|done]. destruct (d <? K) eqn:E1; [|done].
    pose proof (Z.mod_pos_bound d s ltac:(lia)).
    destruct (d mod s <? _) eqn:E; [done|zb; lia]. }
  split; [lia|].
  split; [done|].
  unfold explicit_bzero. rewrite Ho, Ht.
  split; [done|]. split; [done|].
  split.
  { unfold sha2pass, citadel_crypto_hash_sha512.
    by rewrite Nat2Z.id, firstn_all. }
  destruct Hcalls as [Hc1 Hc2]. destruct Hbufs as [Hb1 Hb2].
  rewrite Hb2. done.
Qed.

(** The stores of a valid call, in their order. *)
Lemma pbkdf_store_log fuel e pass salt key rounds :
  valid_input pass salt key rounds = true -> calloc_ok e = true ->
  (Z.to_nat (stride_of (Z.of_nat (length key))) <= fuel)%nat ->
  let K := Z.of_nat (length key) in
  let s := stride_of K in
  exists r,
    citadel_bcrypt_pbkdf hash fuel e pass salt key rounds = Some r
    /\ r_key_stores r
       = flat_map
           (fun c : nat =>
              map (fun i : nat => Z.of_nat i * s + Z.of_nat c)
                (seq 0 (Z.to_nat ((K - Z.of_nat c + s - 1) / s))))
           (seq 0 (Z.to_nat s)).
Proof.
  intros Hv Hc Hf K s.
  pose proof (valid_input_lengths _ _ _ _ Hv) as (_ & _ & HK & _).
  eexists. split; [by apply pbkdf_accepts|].
  cbn [r_key_stores].
  exact (stores_upto hash e pass salt key rounds HK (Z.to_nat s) ltac:(done)).
Qed.

(** What [bad] leaves behind. *)
Lemma pbkdf_failure fuel e pass salt key rounds :
  valid_input pass salt key rounds = false \/ calloc_ok e = false ->
  exists r,
    citadel_bcrypt_pbkdf hash fuel e pass salt key rounds = Some r
    /\ ret r = -1
    /\ r_key r = (if on_apple e
                  then arc4random_buf e key (Z.of_nat (length key))
                  else (getentropy e key (Z.of_nat (length key))).1)
    /\ r_sha512_calls r = 0%nat /\ r_bcrypt_calls r = 0%nat
    /\ r_key_stores r = [] /\ r_freed r = None
    /\ r_sha2pass r = uninit e 64 /\ r_sha2salt r = uninit e 64
    /\ r_out r = uninit e 32 /\ r_tmpout r = uninit e 32.
Proof.
  intros H. eexists. split; [by apply pbkdf_rejects|].
  repeat split.
Qed.

End Call.

(** ** The properties of the derivation *)

Lemma rejected_cases pass salt key rounds :
  rejected pass salt key rounds = true <->
  rounds < 1 \/ pass = [] \/ salt = []
  \/ Z.of_nat (length key) = 0 \/ Z.of_nat (length key) > 1024
  \/ Z.of_nat (length salt) > 2 ^ 20.
Proof.
  unfold rejected.
  change (BCRYPT_HASHSIZE * BCRYPT_HASHSIZE) with 1024.
  change (Z.shiftl 1 20) with (2 ^ 20).
  rewrite !orb_true_iff, !Z.gtb_ltb, !Z.ltb_lt, !Z.eqb_eq.
  assert (Hnil : forall l : list Z, Z.of_nat (length l) = 0 <-> l = []).
  { intros l. destruct l; simpl; split; intros; try done; lia. }
  rewrite !Hnil. intuition lia.
Qed.

Section Claims.

Context {BF : Blowfish}.
Variable hash : list Z -> list Z.

(** C1.  A successful [citadel_bcrypt_pbkdf] on valid arguments writes
    every byte of the [keylen]-byte buffer exactly once: with
    [stride = ceil(keylen / 32)] and [amt = ceil(keylen / stride)], the
    stores [key[i * stride + (count - 1)] = out[i]] of all passes, listed
    in their order, hit each index [0 .. keylen - 1] once and no other
    index, and when the call returns every byte of the buffer is the
    [out[i]] stored to it, whatever the buffer held before. *)
Theorem derive_key_writes_each_byte_once fuel e pass salt key rounds :
  valid_input pass salt key rounds = true ->
  calloc_ok e = true ->
  (Z.to_nat (stride_of (Z.of_nat (length key))) <= fuel)%nat ->
  let K := Z.of_nat (length key) in
  stride_of K = (K + 31) / 32
  /\ amt_of K = (K + stride_of K - 1) / stride_of K
  /\ exists r,
       citadel_bcrypt_pbkdf hash fuel e pass salt key rounds = Some r
       /\ ret r = 0
       /\ length (r_key r) = length key
       /\ length (r_key_stores r) = length key
       /\ (forall d, 0 <= d < K ->
             count_occ Z.eq_dec (r_key_stores r) d = 1%nat)
       /\ (forall d, In d (r_key_stores r) -> 0 <= d < K)
       /\ r_key_stores r
          = flat_map
              (fun c : nat =>
                 map (fun i : nat => Z.of_nat i * stride_of K + Z.of_nat c)
                   (seq 0 (Z.to_nat ((K - Z.of_nat c + stride_of K - 1)
                                     / stride_of K))))
              (seq 0 (Z.to_nat (stride_of K)))
       /\ (forall c i,
             0 <= c < stride_of K -> 0 <= i -> i * stride_of K + c < K ->
             r_key r !! Z.to_nat (i * stride_of K + c)
             = Some (load (pbkdf_block hash pass salt rounds (c + 1)) i))
       /\ (forall d, 0 <= d < K ->
             r_key r !! Z.to_nat d
             = Some (load (pbkdf_block hash pass salt rounds
                             (d mod stride_of K + 1))
                       (d / stride_of K))).
Proof.
  intros Hv Hc Hf K.
  pose proof (valid_input_lengths _ _ _ _ Hv) as (_ & _ & HK & _).
  pose proof (stride_facts _ HK) as (Hs1 & Hs & Ha).
  split; [exact Hs|]. split; [exact Ha|].
  destruct (pbkdf_success hash fuel e pass salt key rounds Hv Hc Hf)
    as (r & Hrun & Hret & Hlen & Hkey & Hcnt & Hlog & _).
  destruct (pbkdf_store_log hash fuel e pass salt key rounds Hv Hc Hf)
    as (r' & Hrun' & Hstores).
  assert (r' = r) as -> by congruence.
  exists r. do 4 (split; [assumption|]). subst K. split.
  { intros d Hd. rewrite Hcnt.
    destruct (0 <=? d) eqn:E0; destruct (d <? _) eqn:E1;
      zb; try done; lia. }
  split.
  { intros d Hd. apply (count_occ_In Z.eq_dec) in Hd. rewrite Hcnt in Hd.
    destruct (0 <=? d) eqn:E0; destruct (d <? _) eqn:E1;
      zb; simpl in Hd; lia. }
  split; [exact Hstores|]. split; [|exact Hkey].
  intros c i Hc' Hi Hd. rewrite Hkey by nia.
  replace ((i * stride_of (Z.of_nat (length key)) + c)
           mod stride_of (Z.of_nat (length key))) with c
    by (apply Z.mod_unique with (q := i); lia).
  replace ((i * stride_of (Z.of_nat (length key)) + c)
           / stride_of (Z.of_nat (length key))) with i
    by (apply Z.div_unique with (r := c); lia).
  done.
Qed.

(** C2.  [citadel_bcrypt_pbkdf] returns -1 exactly when [rounds < 1], the
    password or the salt is empty, [keylen] is 0 or above 1024, [saltlen]
    is above 2^20, or the working buffer cannot be allocated; otherwise it
    returns 0.  When it returns -1 neither the digest nor [bcrypt_hash]
    has been called and nothing has been stored in the key by the
    derivation. *)
Theorem derive_key_fails_iff fuel e pass salt key rounds :
  (32 <= fuel)%nat ->
  exists r,
    citadel_bcrypt_pbkdf hash fuel e pass salt key rounds = Some r
    /\ (ret r = -1 \/ ret r = 0)
    /\ (ret r = -1 <->
        rounds < 1 \/ pass = [] \/ salt = []
        \/ Z.of_nat (length key) = 0 \/ Z.of_nat (length key) > 1024
        \/ Z.of_nat (length salt) > 2 ^ 20
        \/ calloc_ok e = false)
    /\ (ret r = -1 ->
        r_sha512_calls r = 0%nat /\ r_bcrypt_calls r = 0%nat
        /\ r_key_stores r = [] /\ r_freed r = None)
    /\ (ret r = 0 ->
        (1 <= r_sha512_calls r)%nat /\ (1 <= r_bcrypt_calls r)%nat).
Proof.
  intros Hf.
  pose proof (rejected_valid pass salt key rounds) as Hrv.
  pose proof (rejected_cases pass salt key rounds) as Hrc.
  destruct (valid_input pass salt key rounds) eqn:Hv;
    [destruct (calloc_ok e) eqn:Hc|].
  - pose proof (valid_input_lengths _ _ _ _ Hv) as (_ & _ & HK & Hr).
    pose proof (stride_facts _ HK) as (Hs & _).
    destruct (pbkdf_success hash fuel e pass salt key rounds Hv Hc ltac:(lia))
      as (r & Hrun & Hret & _ & _ & _ & _ & _ & _ & _ & _ & Hc1 & Hc2).
    exists r. split; [exact Hrun|]. split; [by right|].
    split; [|split; [intros; lia|intros _; nia]].
    split; [intros; lia|].
    intros H. assert (Hrj : rejected pass salt key rounds = true).
    { apply Hrc. intuition congruence. }
    rewrite Hrv in Hrj. done.
  - destruct (pbkdf_failure hash fuel e pass salt key rounds ltac:(by right))
      as (r & Hrun & Hret & _ & H1 & H2 & H3 & H4 & _).
    exists r. split; [exact Hrun|]. split; [by left|].
    split; [|split; [done|intros; lia]].
    split; [intros _|done]. do 6 right. done.
  - destruct (pbkdf_failure hash fuel e pass salt key rounds ltac:(by left))
      as (r & Hrun & Hret & _ & H1 & H2 & H3 & H4 & _).
    exists r. split; [exact Hrun|]. split; [by left|].
    split; [|split; [done|intros; lia]].
    split; [intros _|done].
    simpl in Hrv. apply Hrc in Hrv. intuition.
Qed.

(** C9.  On valid arguments the outer loop makes exactly
    [stride = ceil(keylen / 32)] passes: in each of them the first
    destination [count - 1] is below [keylen], at least one byte is
    stored, and the remaining length strictly decreases; after [stride]
    passes it is 0 and the loop ends (and not before). *)
Theorem outer_loop_makes_stride_passes fuel e pass salt key rounds :
  valid_input pass salt key rounds = true ->
  let K := Z.of_nat (length key) in
  let s := stride_of K in
  let sha2pass := citadel_crypto_hash_sha512 hash pass (Z.of_nat (length pass)) in
  let saltlen := Z.of_nat (length salt) in
  let body := loop_body hash sha2pass saltlen rounds s K in
  let st := fun k : nat => Nat.iter k body (loop_init e salt key) in
  s = (K + 31) / 32
  /\ (forall k : nat, Z.of_nat k < s ->
        ls_count (st k) = Z.of_nat k + 1
        /\ ls_count (st k) - 1 < K
        /\ 0 < ls_keylen (st k)
        /\ (length (ls_key_stores (st k))
            < length (ls_key_stores (st (Datatypes.S k))))%nat
        /\ 0 <= ls_keylen (st (Datatypes.S k)) < ls_keylen (st k))
  /\ ls_keylen (st (Z.to_nat s)) = 0
  /\ ((Z.to_nat s <= fuel)%nat ->
      outer_loop hash fuel sha2pass saltlen rounds s K (loop_init e salt key)
      = Some (st (Z.to_nat s)))
  /\ ((fuel < Z.to_nat s)%nat ->
      outer_loop hash fuel sha2pass saltlen rounds s K (loop_init e salt key)
      = None)
  /\ (calloc_ok e = true -> (Z.to_nat s <= fuel)%nat ->
      exists r,
        citadel_bcrypt_pbkdf hash fuel e pass salt key rounds = Some r
        /\ ret r = 0 /\ r_count r = s + 1).
Proof.
  intros Hv K s sha2pass saltlen body st.
  pose proof (valid_input_lengths _ _ _ _ Hv) as (_ & _ & HK & _).
  assert (Hs : 1 <= s <= 32 /\ s = (K + 31) / 32)
    by (split; apply (stride_facts _ HK)).
  assert (Hpass : forall k : nat, Z.of_nat k < s ->
    let i := assemble_i
               (Z.to_nat (MINIMUM (ls_amt (st k)) (ls_keylen (st k)))) 0 s
               (Z.of_nat k + 1) K in
    ls_count (st k) = Z.of_nat k + 1
    /\ 0 < ls_keylen (st k) <= K
    /\ 1 <= i <= ls_keylen (st k)
    /\ (i - 1) * s + Z.of_nat k < K
    /\ ls_keylen (st (Datatypes.S k)) = ls_keylen (st k) - i
    /\ length (ls_key_stores (st (Datatypes.S k)))
       = (length (ls_key_stores (st k)) + Z.to_nat i)%nat).
  { intros k Hk.
    assert (Hk' : (k < Z.to_nat (stride_of (Z.of_nat (length key))))%nat)
      by (fold K s; lia).
    pose proof (pass_facts hash e pass salt key rounds HK k Hk')
      as (H1 & H2 & H3 & _ & H5).
    pose proof (pass_keylen hash e pass salt key rounds HK k Hk') as H6.
    pose proof (pass_stores hash e pass salt key rounds HK k Hk') as H7.
    exact (conj H1 (conj H2 (conj H3 (conj (proj1 H5) (conj H6 H7))))). }
  split; [apply Hs|]. split.
  { intros k Hk. specialize (Hpass k Hk). cbv zeta in Hpass.
    destruct Hpass as (H1 & H2 & H3 & H4 & H5 & H6).
    rewrite H5, H6. repeat split; try lia. nia. }
  split; [exact (final_keylen hash e pass salt key rounds HK)|].
  split; [intros Hf; by apply (run_loop hash e pass salt key rounds HK)|].
  split.
  { intros Hf. apply outer_loop_short. intros m Hm.
    apply (Hpass m). lia. }
  intros Hc Hf.
  destruct (pbkdf_success hash fuel e pass salt key rounds Hv Hc Hf)
    as (r & Hrun & Hret & _ & _ & _ & _ & Hcount & _).
  by exists r.
Qed.

Lemma length_pbkdf_block pass salt rounds count :
  Z.of_nat (length salt) <= 2 ^ 20 ->
  length (pbkdf_block hash pass salt rounds count) = 32%nat.
Proof.
  intros Hs. apply (block_state_shape hash pass salt rounds count Hs).
Qed.

(** C10.  For [1 <= keylen <= 32]: [stride] is 1, [amt] is [keylen], the
    outer loop makes one pass, and the key is the first [keylen] bytes of
    the one accumulated block. *)
Theorem single_block_key_is_prefix fuel e pass salt key rounds :
  valid_input pass salt key rounds = true ->
  calloc_ok e = true ->
  Z.of_nat (length key) <= 32 ->
  (1 <= fuel)%nat ->
  let K := Z.of_nat (length key) in
  stride_of K = 1 /\ amt_of K = K
  /\ exists r,
       citadel_bcrypt_pbkdf hash fuel e pass salt key rounds = Some r
       /\ ret r = 0
       /\ r_count r = 2
       /\ length (pbkdf_block hash pass salt rounds 1) = 32%nat
       /\ r_key r = take (length key) (pbkdf_block hash pass salt rounds 1).
Proof.
  intros Hv Hc H32 Hf K.
  pose proof (valid_input_lengths _ _ _ _ Hv) as (_ & Hsalt & HK & _).
  pose proof (stride_facts _ HK) as (_ & Hs & Ha). fold K in Hs, Ha.
  assert (Hs1 : stride_of K = 1).
  { rewrite Hs. symmetry. apply Z.div_unique with (r := K - 1); lia. }
  rewrite Hs1 in Ha.
  assert (Ha1 : amt_of K = K).
  { rewrite Ha, Z.div_1_r. lia. }
  split; [exact Hs1|]. split; [exact Ha1|].
  destruct (pbkdf_success hash fuel e pass salt key rounds Hv Hc)
    as (r & Hrun & Hret & Hlen & Hkey & _ & _ & Hcount & _).
  { fold K. rewrite Hs1. lia. }
  fold K in Hkey, Hcount. rewrite Hs1 in Hkey, Hcount.
  pose proof (length_pbkdf_block pass salt rounds 1 ltac:(lia)) as Hb.
  exists r. do 4 (split; [done|]).
  apply list_eq. intros n.
  destruct (decide (n < length key)%nat) as [Hn|Hn].
  - specialize (Hkey (Z.of_nat n) ltac:(lia)).
    rewrite Nat2Z.id, Z.mod_1_r, Z.div_1_r in Hkey.
    rewrite Hkey, lookup_take_lt by done.
    change (0 + 1) with 1. symmetry.
    rewrite <- (Nat2Z.id n) at 1. apply lookup_load. lia.
  - rewrite lookup_take_ge by lia. apply lookup_ge_None. lia.
Qed.

(** C4.  For [keylen = 64] the stride is 2: byte [i] of the block
    accumulated for the first counter value lands at index [2 i] of the
    key and byte [i] of the block for the second at index [2 i + 1], for
    every [i < 16]. *)
Theorem two_blocks_interleave fuel e pass salt key rounds i :
  valid_input pass salt key rounds = true ->
  calloc_ok e = true ->
  length key = 64%nat ->
  (2 <= fuel)%nat ->
  0 <= i < 16 ->
  stride_of 64 = 2
  /\ length (pbkdf_block hash pass salt rounds 1) = 32%nat
  /\ length (pbkdf_block hash pass salt rounds 2) = 32%nat
  /\ exists r,
       citadel_bcrypt_pbkdf hash fuel e pass salt key rounds = Some r
       /\ ret r = 0
       /\ r_key r !! Z.to_nat (i * 2)
          = Some (load (pbkdf_block hash pass salt rounds 1) i)
       /\ r_key r !! Z.to_nat (i * 2 + 1)
          = Some (load (pbkdf_block hash pass salt rounds 2) i).
Proof.
  intros Hv Hc H64 Hf Hi.
  pose proof (valid_input_lengths _ _ _ _ Hv) as (_ & Hsalt & HK & _).
  split; [reflexivity|].
  split; [apply length_pbkdf_block; lia|].
  split; [apply length_pbkdf_block; lia|].
  destruct (pbkdf_success hash fuel e pass salt key rounds Hv Hc)
    as (r & Hrun & Hret & Hlen & Hkey & _).
  { rewrite H64. change (Z.to_nat (stride_of (Z.of_nat 64))) with 2%nat. lia. }
  rewrite H64 in Hkey. change (stride_of (Z.of_nat 64)) with 2 in Hkey.
  exists r. split; [done|]. split; [done|]. split.
  - rewrite Hkey by lia.
    replace ((i * 2) mod 2) with 0
      by (apply Z.mod_unique with (q := i); lia).
    replace (i * 2 / 2) with i
      by (apply Z.div_unique with (r := 0); lia).
    done.
  - rewrite Hkey by lia.
    replace ((i * 2 + 1) mod 2) with 1
      by (apply Z.mod_unique with (q := i); lia).
    replace ((i * 2 + 1) / 2) with i
      by (apply Z.div_unique with (r := 1); lia).
    done.
Qed.

(** C6.  For a fixed digest and fixed valid password, salt, round count
    and key length, any two calls whose allocation succeeds return 0 with
    the same bytes in the key buffer, whatever the buffer, the stack and
    the random source held and on either platform. *)
Theorem derive_key_deterministic fuel1 fuel2 e1 e2 pass salt key1 key2 rounds :
  valid_input pass salt key1 rounds = true ->
  length key2 = length key1 ->
  calloc_ok e1 = true -> calloc_ok e2 = true ->
  (32 <= fuel1)%nat -> (32 <= fuel2)%nat ->
  exists r1 r2,
    citadel_bcrypt_pbkdf hash fuel1 e1 pass salt key1 rounds = Some r1
    /\ citadel_bcrypt_pbkdf hash fuel2 e2 pass salt key2 rounds = Some r2
    /\ ret r1 = 0 /\ ret r2 = 0
    /\ r_key r1 = r_key r2.
Proof.
  intros Hv Hlen Hc1 Hc2 Hf1 Hf2.
  assert (Hv2 : valid_input pass salt key2 rounds = true).
  { unfold valid_input in *. by rewrite Hlen. }
  pose proof (valid_input_lengths _ _ _ _ Hv) as (_ & _ & HK & _).
  pose proof (stride_facts _ HK) as (Hs & _).
  destruct (pbkdf_success hash fuel1 e1 pass salt key1 rounds Hv Hc1)
    as (r1 & Hrun1 & Hret1 & Hlen1 & Hkey1 & _); [lia|].
  destruct (pbkdf_success hash fuel2 e2 pass salt key2 rounds Hv2 Hc2)
    as (r2 & Hrun2 & Hret2 & Hlen2 & Hkey2 & _); [rewrite Hlen; lia|].
  exists r1, r2. do 4 (split; [done|]).
  rewrite Hlen in Hkey2, Hlen2.
  apply list_eq. intros n.
  destruct (decide (n < length key1)%nat) as [Hn|Hn].
  - specialize (Hkey1 (Z.of_nat n) ltac:(lia)).
    specialize (Hkey2 (Z.of_nat n) ltac:(lia)).
    rewrite Nat2Z.id in Hkey1, Hkey2. by rewrite Hkey1, Hkey2.
  - rewrite !(proj2 (lookup_ge_None _ _)) by lia. done.
Qed.

Lemma pbkdf_block_succ pass salt rounds count :
  1 <= rounds -> Z.of_nat (length salt) <= 2 ^ 20 ->
  pbkdf_block hash pass salt (rounds + 1) count
  = zip_with Z.lxor (pbkdf_block hash pass salt rounds count)
      (pbkdf_last_tmpout hash pass salt (rounds + 1) count)
  /\ length (pbkdf_last_tmpout hash pass salt (rounds + 1) count) = 32%nat
  /\ pbkdf_last_tmpout hash pass salt (rounds + 1) count
     = bcrypt_hash
         (citadel_crypto_hash_sha512 hash pass (Z.of_nat (length pass)))
         (citadel_crypto_hash_sha512 hash
            (pbkdf_last_tmpout hash pass salt rounds count) BCRYPT_HASHSIZE)
         (pbkdf_last_tmpout hash pass salt rounds count).
Proof.
  intros Hr Hs. unfold pbkdf_block, pbkdf_last_tmpout.
  rewrite !pbkdf_block_state_eq by lia.
  pose proof (block_of_succ hash
                (citadel_crypto_hash_sha512 hash pass (Z.of_nat (length pass)))
                salt rounds count Hr) as [H1 H2].
  pose proof (block_of_lengths hash
                (citadel_crypto_hash_sha512 hash pass (Z.of_nat (length pass)))
                salt (rounds + 1) count) as [H3 _].
  cbv zeta in *. done.
Qed.




(** C5, as the code has it.  On the success return the running output
    block and the scratch block are all zero bytes, while the password
    digest and the last salt digest are still in their arrays; on the
    failure return no block has been allocated, no digest computed and
    the four arrays were never assigned. *)
Theorem zap_on_return fuel e pass salt key rounds :
  (32 <= fuel)%nat ->
  exists r,
    citadel_bcrypt_pbkdf hash fuel e pass salt key rounds = Some r
    /\ (ret r = 0 \/ ret r = -1)
    /\ (ret r = 0 ->
        r_out r = replicate 32 0 /\ r_tmpout r = replicate 32 0
        /\ r_sha2pass r = hash pass
        /\ r_sha2salt r
           = pbkdf_last_sha2salt hash pass salt rounds
               (stride_of (Z.of_nat (length key))))
    /\ (ret r = -1 ->
        r_freed r = None
        /\ r_sha512_calls r = 0%nat /\ r_bcrypt_calls r = 0%nat
        /\ r_sha2pass r = uninit e 64 /\ r_sha2salt r = uninit e 64
        /\ r_out r = uninit e 32 /\ r_tmpout r = uninit e 32).
Proof.
  intros Hf.
  destruct (valid_input pass salt key rounds && calloc_ok e) eqn:Hvc.
  - apply andb_true_iff in Hvc as [Hv Hc].
    pose proof (valid_input_lengths _ _ _ _ Hv) as (_ & _ & HK & _).
    pose proof (stride_facts _ HK) as (Hs & _).
    destruct (pbkdf_success hash fuel e pass salt key rounds Hv Hc ltac:(lia))
      as (r & Hrun & Hret & _ & _ & _ & _ & _ & Ho & Ht & Hp & _ & _ & Hss & _).
    exists r. split; [done|]. split; [by left|].
    split; [done|]. intros; lia.
  - apply andb_false_iff in Hvc.
    destruct (pbkdf_failure hash fuel e pass salt key rounds Hvc)
      as (r & Hrun & Hret & _ & H1 & H2 & _ & H4 & H5 & H6 & H7 & H8).
    exists r. split; [done|]. split; [by right|].
    split; [intros; lia|done].
Qed.

(** On the failure path the key is filled from the random source, except
    where [getentropy] is used and refuses the length. *)
Lemma failure_key fuel e pass salt key rounds :
  valid_input pass salt key rounds = false \/ calloc_ok e = false ->
  exists r,
    citadel_bcrypt_pbkdf hash fuel e pass salt key rounds = Some r
    /\ ret r = -1
    /\ r_key r = if on_apple e || (Z.of_nat (length key) <=? 256)
                 then map (random_byte e) (seq 0 (length key))
                 else key.
Proof.
  intros H.
  destruct (pbkdf_failure hash fuel e pass salt key rounds H)
    as (r & Hrun & Hret & Hkey & _).
  exists r. split; [done|]. split; [done|]. rewrite Hkey.
  assert (Hfill : random_fill e key (Z.of_nat (length key))
                  = map (random_byte e) (seq 0 (length key))).
  { unfold random_fill. rewrite Nat2Z.id, drop_all. apply app_nil_r. }
  unfold arc4random_buf, getentropy. rewrite Z.gtb_ltb.
  destruct (on_apple e); [done|]. cbn [orb].
  rewrite Z.leb_antisym.
  destruct (256 <? Z.of_nat (length key)); cbn [negb fst]; done.
Qed.

Lemma zip_xor_thrice (l : list Z) :
  zip_with Z.lxor (zip_with Z.lxor l l) l = l.
Proof.
  induction l as [|a l IH]; [done|]. cbn [zip_with].
  by rewrite IH, Z.lxor_nilpotent, Z.lxor_0_l.
Qed.

End Claims.

(** Whatever the Blowfish primitives are, a digest that ignores its input
    makes one round and three rounds give the same block, hence the same
    key. *)
Lemma const_digest_block_1_3 {BF : Blowfish} (c pass salt : list Z) count :
  Z.of_nat (length salt) <= 2 ^ 20 ->
  pbkdf_block (fun _ => c) pass salt 3 count
  = pbkdf_block (fun _ => c) pass salt 1 count.
Proof.
  intros Hs. set (h := fun _ : list Z => c).
  destruct (pbkdf_block_succ h pass salt 1 count ltac:(lia) Hs)
    as (Hb2 & Hl2 & Ht2).
  destruct (pbkdf_block_succ h pass salt 2 count ltac:(lia) Hs)
    as (Hb3 & Hl3 & Ht3).
  change (1 + 1) with 2 in *. change (2 + 1) with 3 in *.
  set (T := bcrypt_hash c c (replicate 32 0)).
  assert (HT : length T = 32%nat)
    by (unfold T; by rewrite length_bcrypt_hash, length_replicate).
  assert (HB1 : pbkdf_block h pass salt 1 count = T).
  { unfold pbkdf_block. rewrite pbkdf_block_state_eq by lia. done. }
  assert (H1 : pbkdf_last_tmpout h pass salt 1 count = T).
  { unfold pbkdf_last_tmpout. rewrite pbkdf_block_state_eq by lia. done. }
  assert (H2 : pbkdf_last_tmpout h pass salt 2 count = T).
  { rewrite Ht2, H1. unfold citadel_crypto_hash_sha512, h.
    apply bcrypt_hash_indep; [done|by rewrite length_replicate]. }
  assert (H3 : pbkdf_last_tmpout h pass salt 3 count = T).
  { rewrite Ht3, H2. unfold citadel_crypto_hash_sha512, h.
    apply bcrypt_hash_indep; [done|by rewrite length_replicate]. }
  rewrite Hb3, Hb2, H3, H2, HB1. apply zip_xor_thrice.
Qed.

Lemma const_digest_rounds_1_3 {BF : Blowfish} (c : list Z)
    fuel e pass salt key :
  valid_input pass salt key 1 = true -> calloc_ok e = true ->
  (32 <= fuel)%nat ->
  exists r1 r3,
    citadel_bcrypt_pbkdf (fun _ => c) fuel e pass salt key 1 = Some r1
    /\ citadel_bcrypt_pbkdf (fun _ => c) fuel e pass salt key 3 = Some r3
    /\ ret r1 = 0 /\ ret r3 = 0 /\ r_key r1 = r_key r3.
Proof.
  intros Hv Hc Hf.
  pose proof (valid_input_lengths _ _ _ _ Hv) as (_ & Hsalt & HK & _).
  assert (Hv3 : valid_input pass salt key 3 = true).
  { unfold valid_input in *. rewrite !andb_true_iff in *.
    destruct Hv as [Hv _]. by split. }
  pose proof (stride_facts _ HK) as (Hs & _).
  destruct (pbkdf_success (fun _ => c) fuel e pass salt key 1 Hv Hc)
    as (r1 & Hrun1 & Hret1 & Hlen1 & Hkey1 & _); [lia|].
  destruct (pbkdf_success (fun _ => c) fuel e pass salt key 3 Hv3 Hc)
    as (r3 & Hrun3 & Hret3 & Hlen3 & Hkey3 & _); [lia|].
  exists r1, r3. do 4 (split; [done|]).
  apply list_eq. intros n.
  destruct (decide (n < length key)%nat) as [Hn|Hn].
  - specialize (Hkey1 (Z.of_nat n) ltac:(lia)).
    specialize (Hkey3 (Z.of_nat n) ltac:(lia)).
    rewrite Nat2Z.id in Hkey1, Hkey3. rewrite Hkey1, Hkey3.
    by rewrite const_digest_block_1_3 by lia.
  - rewrite !(proj2 (lookup_ge_None _ _)) by lia. done.
Qed.

(** ** Round counts that give the same key

    A one-byte key takes at most 256 values, so among the round counts
    1 .. 257 two give the same key, whatever the digest and the Blowfish
    primitives are. *)

Lemma land_255_range x : 0 <= Z.land x 255 < 256.
Proof.
  change 255 with (Z.ones 8). rewrite Z.land_ones by lia.
  apply Z.mod_pos_bound. lia.
Qed.

Lemma lxor_byte_range a b :
  0 <= a < 256 -> 0 <= b < 256 -> 0 <= Z.lxor a b < 256.
Proof.
  intros Ha Hb.
  assert (Hnn : 0 <= Z.lxor a b) by (apply Z.lxor_nonneg; lia).
  split; [exact Hnn|].
  destruct (Z.eq_dec (Z.lxor a b) 0) as [->|Hne]; [lia|].
  change 256 with (2 ^ 8). apply Z.log2_lt_pow2; [lia|].
  eapply Z.le_lt_trans; [apply Z.log2_lxor; lia|].
  apply Z.max_lub_lt.
  - destruct (Z.eq_dec a 0) as [->|]; [done|]. apply Z.log2_lt_pow2; lia.
  - destruct (Z.eq_dec b 0) as [->|]; [done|]. apply Z.log2_lt_pow2; lia.
Qed.

Lemma bcrypt_hash_range {BF : Blowfish} sha2pass sha2salt out :
  length out = 32%nat ->
  Forall (fun b => 0 <= b < 256) (bcrypt_hash sha2pass sha2salt out).
Proof.
  intros Hlen. unfold bcrypt_hash. rewrite copy_out_eq by done.
  unfold le_bytes. cbn [app]. repeat constructor; apply land_255_range.
Qed.

Lemma pbkdf_block_range {BF : Blowfish} hash pass salt count (n : nat) :
  Z.of_nat (length salt) <= 2 ^ 20 ->
  Forall (fun b => 0 <= b < 256)
    (pbkdf_block hash pass salt (Z.of_nat n + 1) count).
Proof.
  intros Hs. induction n as [|n IH].
  - unfold pbkdf_block. rewrite pbkdf_block_state_eq by lia.
    apply bcrypt_hash_range. by rewrite length_replicate.
  - destruct (pbkdf_block_succ hash pass salt (Z.of_nat n + 1) count
                ltac:(lia) Hs) as (Hb & Hl & Ht).
    replace (Z.of_nat (Datatypes.S n) + 1) with (Z.of_nat n + 1 + 1) by lia.
    rewrite Hb. apply Forall_lookup_2. intros i x Hx.
    apply lookup_zip_with_Some in Hx as (a & b & -> & Ha & Hb').
    apply lxor_byte_range.
    + by apply (Forall_lookup_1 _ _ _ _ IH Ha).
    + rewrite Ht in Hb'.
      refine (Forall_lookup_1 _ _ _ _ (bcrypt_hash_range _ _ _ _) Hb').
      apply (block_state_shape hash pass salt (Z.of_nat n + 1) count Hs).
Qed.

Lemma one_byte_key {BF : Blowfish} hash fuel e pass salt key rounds :
  valid_input pass salt key 1 = true -> length key = 1%nat ->
  calloc_ok e = true -> (1 <= fuel)%nat -> 1 <= rounds ->
  exists r,
    citadel_bcrypt_pbkdf hash fuel e pass salt key rounds = Some r
    /\ ret r = 0
    /\ r_key r = [load (pbkdf_block hash pass salt rounds 1) 0].
Proof.
  intros Hv Hlen Hc Hf Hr.
  assert (Hv' : valid_input pass salt key rounds = true).
  { unfold valid_input in *. rewrite !andb_true_iff in *.
    destruct Hv as [Hv _]. split; [exact Hv|]. apply Z.leb_le. lia. }
  destruct (pbkdf_success hash fuel e pass salt key rounds Hv' Hc)
    as (r & Hrun & Hret & Hlen' & Hkey & _).
  { rewrite Hlen. change (Z.to_nat (stride_of (Z.of_nat 1))) with 1%nat. lia. }
  rewrite Hlen in Hkey, Hlen'.
  change (stride_of (Z.of_nat 1)) with 1 in Hkey.
  specialize (Hkey 0 ltac:(lia)).
  change (0 mod 1 + 1) with 1 in Hkey. change (0 / 1) with 0 in Hkey.
  change (Z.to_nat 0) with 0%nat in Hkey.
  exists r. split; [done|]. split; [done|].
  destruct (r_key r) as [|x [|y l]]; try discriminate Hlen'.
  injection Hkey as ->. done.
Qed.

(** X11.  A one-byte key takes at most 256 values: for every digest,
    password and salt, two of the round counts 1 .. 257 give the same
    key. *)
Lemma some_rounds_collide {BF : Blowfish} hash fuel e pass salt key :
  valid_input pass salt key 1 = true -> length key = 1%nat ->
  calloc_ok e = true -> (1 <= fuel)%nat ->
  exists r1 r2 o1 o2,
    1 <= r1 < r2 /\ r2 <= 257
    /\ citadel_bcrypt_pbkdf hash fuel e pass salt key r1 = Some o1
    /\ citadel_bcrypt_pbkdf hash fuel e pass salt key r2 = Some o2
    /\ ret o1 = 0 /\ ret o2 = 0
    /\ r_key o1 = r_key o2.
Proof.
  intros Hv Hlen Hc Hf.
  pose proof (valid_input_lengths _ _ _ _ Hv) as (_ & Hsalt & _ & _).
  set (byte := fun i : nat =>
         load (pbkdf_block hash pass salt (Z.of_nat i + 1) 1) 0).
  assert (Hrange : forall i, 0 <= byte i < 256).
  { intros i. unfold byte, load.
    pose proof (pbkdf_block_range hash pass salt 1 i ltac:(lia)) as HF.
    pose proof (length_pbkdf_block hash pass salt (Z.of_nat i + 1) 1
                  ltac:(lia)) as HL.
    eapply (Forall_lookup_1 _ _ _ _ HF).
    apply list_lookup_lookup_total_lt. simpl. lia. }
  destruct (nat_pigeonhole (fun i => Z.to_nat (byte i)) 257 256)
    as (i1 & i2 & Hi & Heq); [lia| |].
  { intros i _. specialize (Hrange i). lia. }
  assert (Hb : byte i1 = byte i2).
  { pose proof (Hrange i1). pose proof (Hrange i2). lia. }
  destruct (one_byte_key hash fuel e pass salt key (Z.of_nat i1 + 1)
              Hv Hlen Hc Hf ltac:(lia)) as (o1 & Hrun1 & Hret1 & Hk1).
  destruct (one_byte_key hash fuel e pass salt key (Z.of_nat i2 + 1)
              Hv Hlen Hc Hf ltac:(lia)) as (o2 & Hrun2 & Hret2 & Hk2).
  exists (Z.of_nat i1 + 1), (Z.of_nat i2 + 1), o1, o2.
  split; [lia|]. split; [lia|]. do 4 (split; [done|]).
  rewrite Hk1, Hk2. f_equal. exact Hb.
Qed.

(** ** Further properties of the derivation *)

Lemma layout_index K d :
  1 <= K <= 1024 -> 0 <= d < K ->
  0 <= d mod stride_of K < stride_of K /\ 0 <= d / stride_of K < 32.
Proof.
  intros HK Hd. pose proof (stride_facts K HK) as (Hs & Hs' & _).
  split; [apply Z.mod_pos_bound; lia|].
  split; [apply Z.div_pos; lia|].
  apply Z.div_lt_upper_bound; [lia|].
  pose proof (Z.div_mod (K + 31) 32 ltac:(lia)).
  pose proof (Z.mod_pos_bound (K + 31) 32 ltac:(lia)). lia.
Qed.

Lemma hash_whole (hash : list Z -> list Z) (l : list Z) (n : Z) :
  Z.of_nat (length l) <= n ->
  citadel_crypto_hash_sha512 hash l n = hash l.
Proof.
  intros H. unfold citadel_crypto_hash_sha512. by rewrite take_ge by lia.
Qed.

Lemma for_upto_ext_inv {S : Type} (P : S -> Prop) (f g : Z -> S -> S) n :
  forall i s,
  P s -> (forall j s, P s -> f j s = g j s /\ P (f j s)) ->
  for_upto n i f s = for_upto n i g s.
Proof.
  induction n as [|n IH]; intros i s Hs Hfg; [done|].
  cbn [for_upto]. destruct (Hfg i s Hs) as [Heq HP].
  rewrite <- Heq. by apply IH.
Qed.

Lemma be32_roundtrip c :
  0 <= c < 2 ^ 32 -> be32_decode (be32 c) = c.
Proof.
  intros Hc.
  change (be32_decode (be32 c))
    with (Z.land (Z.shiftr c 24) 255 * 2 ^ 24
          + Z.land (Z.shiftr c 16) 255 * 2 ^ 16
          + Z.land (Z.shiftr c 8) 255 * 2 ^ 8 + Z.land c 255).
  change 255 with (Z.ones 8).
  rewrite !Z.land_ones, !Z.shiftr_div_pow2 by lia.
  change (2 ^ 8) with 256. change (2 ^ 16) with 65536.
  change (2 ^ 24) with 16777216. change (2 ^ 32) with 4294967296 in Hc.
  Z.div_mod_to_equations. lia.
Qed.

Section Further.

Context {BF : Blowfish}.
Variable hash : list Z -> list Z.

(** X1.  On a valid call the byte at index [d] of the key is byte
    [d / stride] of the block accumulated for counter [d mod stride + 1],
    for every key length and every index. *)
Theorem key_layout fuel e pass salt key rounds d :
  valid_input pass salt key rounds = true ->
  calloc_ok e = true ->
  (32 <= fuel)%nat ->
  0 <= d < Z.of_nat (length key) ->
  let s := stride_of (Z.of_nat (length key)) in
  exists r,
    citadel_bcrypt_pbkdf hash fuel e pass salt key rounds = Some r
    /\ ret r = 0
    /\ length (r_key r) = length key
    /\ 0 <= d mod s < s /\ 0 <= d / s < 32
    /\ length (pbkdf_block hash pass salt rounds (d mod s + 1)) = 32%nat
    /\ load (r_key r) d
       = load (pbkdf_block hash pass salt rounds (d mod s + 1)) (d / s).
Proof.
  intros Hv Hc Hf Hd s.
  pose proof (valid_input_lengths _ _ _ _ Hv) as (_ & Hsalt & HK & _).
  pose proof (stride_facts _ HK) as (Hs & _).
  destruct (layout_index _ d HK Hd) as [Hm Hq].
  destruct (pbkdf_success hash fuel e pass salt key rounds Hv Hc ltac:(lia))
    as (r & Hrun & Hret & Hlen & Hkey & _).
  exists r. do 3 (split; [done|]). split; [exact Hm|]. split; [exact Hq|].
  split; [apply length_pbkdf_block; lia|].
  apply load_lookup. by apply Hkey.
Qed.

(** X2.  Two key lengths with the same stride: the shorter key is the
    beginning of the longer one. *)
Theorem shorter_key_is_prefix fuel e1 e2 pass salt key1 key2 rounds :
  valid_input pass salt key1 rounds = true ->
  valid_input pass salt key2 rounds = true ->
  (length key1 <= length key2)%nat ->
  stride_of (Z.of_nat (length key1)) = stride_of (Z.of_nat (length key2)) ->
  calloc_ok e1 = true -> calloc_ok e2 = true ->
  (32 <= fuel)%nat ->
  exists r1 r2,
    citadel_bcrypt_pbkdf hash fuel e1 pass salt key1 rounds = Some r1
    /\ citadel_bcrypt_pbkdf hash fuel e2 pass salt key2 rounds = Some r2
    /\ ret r1 = 0 /\ ret r2 = 0
    /\ r_key r1 = take (length key1) (r_key r2).
Proof.
  intros Hv1 Hv2 Hle Hst Hc1 Hc2 Hf.
  pose proof (valid_input_lengths _ _ _ _ Hv1) as (_ & _ & HK1 & _).
  pose proof (valid_input_lengths _ _ _ _ Hv2) as (_ & _ & HK2 & _).
  pose proof (stride_facts _ HK1) as (Hs1 & _).
  pose proof (stride_facts _ HK2) as (Hs2 & _).
  destruct (pbkdf_success hash fuel e1 pass salt key1 rounds Hv1 Hc1 ltac:(lia))
    as (r1 & Hrun1 & Hret1 & Hlen1 & Hkey1 & _).
  destruct (pbkdf_success hash fuel e2 pass salt key2 rounds Hv2 Hc2 ltac:(lia))
    as (r2 & Hrun2 & Hret2 & Hlen2 & Hkey2 & _).
  exists r1, r2. do 4 (split; [done|]).
  rewrite <- Hst in Hkey2.
  apply list_eq. intros n.
  destruct (decide (n < length key1)%nat) as [Hn|Hn].
  - rewrite lookup_take_lt by done.
    specialize (Hkey1 (Z.of_nat n) ltac:(lia)).
    specialize (Hkey2 (Z.of_nat n) ltac:(lia)).
    rewrite Nat2Z.id in Hkey1, Hkey2. by rewrite Hkey1, Hkey2.
  - rewrite lookup_take_ge by lia. apply lookup_ge_None. lia.
Qed.

(** X4.  A failing call returns -1 with the key buffer holding the first
    [keylen] bytes of the random source when built for Apple or when
    [keylen <= 256], and with the buffer as the caller left it
    otherwise. *)
Theorem failure_fills_key fuel e pass salt key rounds :
  valid_input pass salt key rounds = false \/ calloc_ok e = false ->
  exists r,
    citadel_bcrypt_pbkdf hash fuel e pass salt key rounds = Some r
    /\ ret r = -1
    /\ length (r_key r) = length key
    /\ r_key r = if on_apple e || (Z.of_nat (length key) <=? 256)
                 then map (random_byte e) (seq 0 (length key))
                 else key.
Proof.
  intros H.
  destruct (failure_key hash fuel e pass salt key rounds H)
    as (r & Hrun & Hret & Hkey).
  exists r. do 2 (split; [done|]). split; [|done].
  rewrite Hkey. destruct (_ || _); [|done].
  by rewrite length_map, length_seq.
Qed.


(** X8.  The password enters the key only through its digest: two
    passwords with the same digest give the same key. *)
Theorem password_only_through_digest fuel e pass1 pass2 salt key rounds :
  valid_input pass1 salt key rounds = true ->
  pass2 <> [] ->
  hash pass1 = hash pass2 ->
  calloc_ok e = true ->
  (32 <= fuel)%nat ->
  exists r1 r2,
    citadel_bcrypt_pbkdf hash fuel e pass1 salt key rounds = Some r1
    /\ citadel_bcrypt_pbkdf hash fuel e pass2 salt key rounds = Some r2
    /\ ret r1 = 0 /\ ret r2 = 0
    /\ r_key r1 = r_key r2.
Proof.
  intros Hv1 Hp2 Hh Hc Hf.
  pose proof (valid_input_lengths _ _ _ _ Hv1) as (_ & Hsalt & HK & _).
  assert (Hv2 : valid_input pass2 salt key rounds = true).
  { unfold valid_input in *. rewrite !andb_true_iff in *.
    destruct Hv1 as (((((_ & H2) & H3) & H4) & H5) & H6).
    repeat split; try assumption.
    destruct pass2; [done|]. reflexivity. }
  pose proof (stride_facts _ HK) as (Hs & _).
  destruct (pbkdf_success hash fuel e pass1 salt key rounds Hv1 Hc ltac:(lia))
    as (r1 & Hrun1 & Hret1 & Hlen1 & Hkey1 & _).
  destruct (pbkdf_success hash fuel e pass2 salt key rounds Hv2 Hc ltac:(lia))
    as (r2 & Hrun2 & Hret2 & Hlen2 & Hkey2 & _).
  exists r1, r2. do 4 (split; [done|]).
  assert (Hblk : forall c, pbkdf_block hash pass1 salt rounds c
                           = pbkdf_block hash pass2 salt rounds c).
  { intros c. unfold pbkdf_block.
    rewrite !pbkdf_block_state_eq by lia.
    by rewrite !hash_whole, Hh by lia. }
  apply list_eq. intros n.
  destruct (decide (n < length key)%nat) as [Hn|Hn].
  - specialize (Hkey1 (Z.of_nat n) ltac:(lia)).
    specialize (Hkey2 (Z.of_nat n) ltac:(lia)).
    rewrite Nat2Z.id in Hkey1, Hkey2. by rewrite Hkey1, Hkey2, Hblk.
  - rewrite !(proj2 (lookup_ge_None _ _)) by lia. done.
Qed.

(** X12.  The salt enters the key only through the digests of the salt
    followed by the counters 1 .. [stride]: two salts on which these
    digests agree give the same key. *)
Theorem salt_only_through_digest fuel e pass salt1 salt2 key rounds :
  valid_input pass salt1 key rounds = true ->
  valid_input pass salt2 key rounds = true ->
  (forall c, 1 <= c <= stride_of (Z.of_nat (length key)) ->
     hash (salt1 ++ be32 c) = hash (salt2 ++ be32 c)) ->
  calloc_ok e = true ->
  (32 <= fuel)%nat ->
  exists r1 r2,
    citadel_bcrypt_pbkdf hash fuel e pass salt1 key rounds = Some r1
    /\ citadel_bcrypt_pbkdf hash fuel e pass salt2 key rounds = Some r2
    /\ ret r1 = 0 /\ ret r2 = 0
    /\ r_key r1 = r_key r2.
Proof.
  intros Hv1 Hv2 Hh Hc Hf.
  pose proof (valid_input_lengths _ _ _ _ Hv1) as (_ & Hsalt1 & HK & _).
  pose proof (valid_input_lengths _ _ _ _ Hv2) as (_ & Hsalt2 & _ & _).
  pose proof (stride_facts _ HK) as (Hs & _).
  destruct (pbkdf_success hash fuel e pass salt1 key rounds Hv1 Hc ltac:(lia))
    as (r1 & Hrun1 & Hret1 & Hlen1 & Hkey1 & _).
  destruct (pbkdf_success hash fuel e pass salt2 key rounds Hv2 Hc ltac:(lia))
    as (r2 & Hrun2 & Hret2 & Hlen2 & Hkey2 & _).
  exists r1, r2. do 4 (split; [done|]).
  assert (Hblk : forall c, 1 <= c <= stride_of (Z.of_nat (length key)) ->
            pbkdf_block hash pass salt1 rounds c
            = pbkdf_block hash pass salt2 rounds c).
  { intros c Hcr. unfold pbkdf_block.
    rewrite !pbkdf_block_state_eq by lia.
    unfold block_of. cbn [fst snd].
    rewrite (hash_whole hash (salt1 ++ be32 c))
      by (rewrite sz_small by lia; rewrite length_app; simpl; lia).
    rewrite (hash_whole hash (salt2 ++ be32 c))
      by (rewrite sz_small by lia; rewrite length_app; simpl; lia).
    by rewrite (Hh c Hcr). }
  apply list_eq. intros n.
  destruct (decide (n < length key)%nat) as [Hn|Hn].
  - assert (Hd : 0 <= Z.of_nat n < Z.of_nat (length key)) by lia.
    pose proof (Hkey1 _ Hd) as H1. pose proof (Hkey2 _ Hd) as H2.
    rewrite Nat2Z.id in H1, H2. rewrite H1, H2, Hblk; [done|].
    destruct (layout_index _ _ HK Hd). lia.
  - rewrite !(proj2 (lookup_ge_None _ _)) by lia. done.
Qed.

(** X10.  With [rounds = 1] nothing is XORed: the byte at index [d] of
    the key is byte [d / stride] of [bcrypt_hash] applied to the digest of
    the password and the digest of the salt followed by the big-endian
    counter [d mod stride + 1]. *)
Theorem single_round_key fuel e pass salt key d :
  valid_input pass salt key 1 = true ->
  calloc_ok e = true ->
  (32 <= fuel)%nat ->
  0 <= d < Z.of_nat (length key) ->
  let s := stride_of (Z.of_nat (length key)) in
  exists r,
    citadel_bcrypt_pbkdf hash fuel e pass salt key 1 = Some r
    /\ ret r = 0
    /\ load (r_key r) d
       = load (bcrypt_hash (hash pass) (hash (salt ++ be32 (d mod s + 1)))
                 (replicate 32 0)) (d / s).
Proof.
  intros Hv Hc Hf Hd s.
  pose proof (valid_input_lengths _ _ _ _ Hv) as (_ & Hsalt & HK & _).
  pose proof (stride_facts _ HK) as (Hs & _).
  destruct (pbkdf_success hash fuel e pass salt key 1 Hv Hc ltac:(lia))
    as (r & Hrun & Hret & Hlen & Hkey & _).
  exists r. do 2 (split; [done|]).
  rewrite (load_lookup _ _ _ (Hkey d Hd)). fold s.
  unfold pbkdf_block. rewrite pbkdf_block_state_eq by lia.
  unfold block_of, for_range. cbn [Z.sub Z.to_nat Z.add Z.opp Z.pos_sub for_upto fst snd].
  rewrite !hash_whole; [done| |lia].
  rewrite sz_small by lia. rewrite length_app. simpl. lia.
Qed.

(** X3.  Pass [k] (from 0) of the outer loop runs with [count = k + 1]
    and stores bytes [0 .. n - 1] of the block for that counter to the
    indices [k], [k + stride], ..., [k + (n - 1) stride], in this order,
    where [n = ceil((keylen - k) / stride)] is between 1 and 32; the
    remaining length goes down by [n]. *)
Theorem pass_stores_every_stride_th_index e pass salt key rounds (k : nat) :
  valid_input pass salt key rounds = true ->
  Z.of_nat k < stride_of (Z.of_nat (length key)) ->
  let K := Z.of_nat (length key) in
  let s := stride_of K in
  let sha2pass := citadel_crypto_hash_sha512 hash pass (Z.of_nat (length pass)) in
  let saltlen := Z.of_nat (length salt) in
  let body := loop_body hash sha2pass saltlen rounds s K in
  let st := fun k : nat => Nat.iter k body (loop_init e salt key) in
  let n := (K - Z.of_nat k + s - 1) / s in
  1 <= n <= 32
  /\ ls_count (st k) = Z.of_nat k + 1
  /\ ls_key_stores (st (Datatypes.S k))
     = ls_key_stores (st k)
       ++ map (fun j : nat => Z.of_nat j * s + Z.of_nat k) (seq 0 (Z.to_nat n))
  /\ ls_keylen (st (Datatypes.S k)) = ls_keylen (st k) - n
  /\ ls_out (st (Datatypes.S k))
     = pbkdf_block hash pass salt rounds (Z.of_nat k + 1)
  /\ (forall j, 0 <= j < n ->
        load (ls_key (st (Datatypes.S k))) (j * s + Z.of_nat k)
        = load (ls_out (st (Datatypes.S k))) j).
Proof.
  intros Hv Hk K s sha2pass saltlen body st n.
  pose proof (valid_input_lengths _ _ _ _ Hv) as (_ & Hsalt & HK & _).
  assert (Hs : 1 <= s <= 32) by apply (stride_facts _ HK).
  assert (Hk' : (k < Z.to_nat (stride_of (Z.of_nat (length key))))%nat)
    by lia.
  assert (Hks : Z.of_nat k < s) by exact Hk.
  assert (Hsalt' : Z.of_nat (length salt) <= 2 ^ 20) by lia.
  assert (Hlog : 1 <= n <= 32
            /\ assemble_i
                 (Z.to_nat (MINIMUM (ls_amt (st k)) (ls_keylen (st k)))) 0 s
                 (Z.of_nat k + 1) K = n
            /\ ls_key_stores (st (Datatypes.S k))
               = ls_key_stores (st k)
                 ++ map (fun j : nat => Z.of_nat j * s + Z.of_nat k)
                      (seq 0 (Z.to_nat n)))
    by exact (pass_log hash e pass salt key rounds HK k Hk').
  destruct Hlog as (Hn & Hi & Hlog).
  assert (Hfacts : ls_count (st k) = Z.of_nat k + 1
            /\ (n - 1) * s + Z.of_nat k < K).
  { rewrite <- Hi.
    pose proof (pass_facts hash e pass salt key rounds HK k Hk')
      as (H1 & _ & _ & _ & H5).
    exact (conj H1 (proj1 H5)). }
  destruct Hfacts as (Hc & Hcover).
  assert (Hkl : ls_keylen (st (Datatypes.S k)) = ls_keylen (st k) - n).
  { rewrite <- Hi.
    exact (pass_keylen hash e pass salt key rounds HK k Hk'). }
  assert (Hout : ls_out (st (Datatypes.S k))
                 = pbkdf_block hash pass salt rounds (Z.of_nat k + 1))
    by exact (pass_out hash e pass salt key rounds HK Hsalt' k Hk').
  assert (Hkey : forall d, 0 <= d < K ->
            ls_key (st (Datatypes.S k)) !! Z.to_nat d
            = if d mod s <? Z.of_nat (Datatypes.S k)
              then Some (load (pbkdf_block hash pass salt rounds (d mod s + 1))
                           (d / s))
              else key !! Z.to_nat d).
  { pose proof (pass_inv hash e pass salt key rounds HK Hsalt'
                  (Datatypes.S k) ltac:(lia)) as (_ & _ & _ & _ & H & _).
    exact H. }
  do 5 (split; [assumption|]).
  intros j Hj. rewrite Hout.
  assert (Hd : 0 <= j * s + Z.of_nat k < K) by nia.
  apply load_lookup. rewrite (Hkey _ Hd).
  replace ((j * s + Z.of_nat k) mod s) with (Z.of_nat k)
    by (apply Z.mod_unique with (q := j); lia).
  replace ((j * s + Z.of_nat k) / s) with j
    by (apply Z.div_unique with (r := Z.of_nat k); lia).
  destruct (_ <? _) eqn:E; [done|zb; lia].
Qed.

(** X6.  The working buffer is the salt followed by the counter as four
    big-endian bytes: when a valid call returns, the block it passes to
    [free] has [saltlen + 4] bytes, begins with the salt and ends with the
    encoding of the last counter value, [stride]. *)
Theorem working_buffer_layout fuel e pass salt key rounds :
  valid_input pass salt key rounds = true ->
  calloc_ok e = true ->
  (32 <= fuel)%nat ->
  let s := stride_of (Z.of_nat (length key)) in
  exists r blk,
    citadel_bcrypt_pbkdf hash fuel e pass salt key rounds = Some r
    /\ ret r = 0
    /\ r_freed r = Some blk
    /\ Z.of_nat (length blk) = Z.of_nat (length salt) + 4
    /\ take (length salt) blk = salt
    /\ drop (length salt) blk = be32 s
    /\ be32_decode (drop (length salt) blk) = s.
Proof.
  intros Hv Hc Hf s.
  pose proof (valid_input_lengths _ _ _ _ Hv) as (_ & _ & HK & _).
  assert (Hs : 1 <= s <= 32) by apply (stride_facts _ HK).
  destruct (pbkdf_success hash fuel e pass salt key rounds Hv Hc
              ltac:(fold s; lia))
    as (r & Hrun & Hret & _ & _ & _ & _ & _ & _ & _ & _ & _ & _ & _ & Hfr).
  fold s in Hfr.
  exists r, (salt ++ be32 s). do 3 (split; [done|]).
  split; [rewrite length_app; simpl; lia|].
  split; [by rewrite take_app_length|].
  rewrite drop_app_length. split; [done|]. apply be32_roundtrip. lia.
Qed.

End Further.

(** X9.  The digest is applied only to the password, to the salt followed
    by a counter between 1 and [stride], and to 32-byte blocks: two
    digests that agree on these inputs give the same key. *)
Theorem digest_inputs {BF : Blowfish} (h1 h2 : list Z -> list Z)
    fuel e pass salt key rounds :
  valid_input pass salt key rounds = true ->
  calloc_ok e = true ->
  (32 <= fuel)%nat ->
  h1 pass = h2 pass ->
  (forall c, 1 <= c <= stride_of (Z.of_nat (length key)) ->
     h1 (salt ++ be32 c) = h2 (salt ++ be32 c)) ->
  (forall x : list Z, length x = 32%nat -> h1 x = h2 x) ->
  exists r1 r2,
    citadel_bcrypt_pbkdf h1 fuel e pass salt key rounds = Some r1
    /\ citadel_bcrypt_pbkdf h2 fuel e pass salt key rounds = Some r2
    /\ ret r1 = 0 /\ ret r2 = 0
    /\ r_key r1 = r_key r2.
Proof.
  intros Hv Hc Hf Hp Hcs H32.
  pose proof (valid_input_lengths _ _ _ _ Hv) as (_ & Hsalt & HK & _).
  pose proof (stride_facts _ HK) as (Hs & _).
  destruct (pbkdf_success h1 fuel e pass salt key rounds Hv Hc ltac:(lia))
    as (r1 & Hrun1 & Hret1 & Hlen1 & Hkey1 & _).
  destruct (pbkdf_success h2 fuel e pass salt key rounds Hv Hc ltac:(lia))
    as (r2 & Hrun2 & Hret2 & Hlen2 & Hkey2 & _).
  exists r1, r2. do 4 (split; [done|]).
  assert (Hblk : forall c, 1 <= c <= stride_of (Z.of_nat (length key)) ->
            pbkdf_block h1 pass salt rounds c = pbkdf_block h2 pass salt rounds c).
  { intros c Hcr. unfold pbkdf_block.
    rewrite !pbkdf_block_state_eq by lia.
    rewrite !(hash_whole _ pass) by lia. rewrite <- Hp.
    unfold block_of. cbn [fst snd].
    rewrite !(hash_whole _ (salt ++ be32 c))
      by (rewrite sz_small by lia; rewrite length_app; simpl; lia).
    rewrite <- (Hcs c Hcr). unfold for_range.
    erewrite (for_upto_ext_inv
                (fun x : list Z * list Z * list Z => length x.1.2 = 32%nat)
                (fun _ => round_body h1 (h1 pass))
                (fun _ => round_body h2 (h1 pass))); [done| |].
    - cbn [fst snd]. by rewrite length_bcrypt_hash, length_replicate.
    - intros _ [[a t] o] Ht. cbn [fst snd] in Ht. unfold round_body.
      change BCRYPT_HASHSIZE with 32.
      rewrite !hash_whole by lia. rewrite <- (H32 t Ht).
      split; [done|]. cbn [fst snd]. by rewrite length_bcrypt_hash. }
  apply list_eq. intros n.
  destruct (decide (n < length key)%nat) as [Hn|Hn].
  - assert (Hd : 0 <= Z.of_nat n < Z.of_nat (length key)) by lia.
    pose proof (Hkey1 _ Hd) as H1. pose proof (Hkey2 _ Hd) as H2.
    rewrite Nat2Z.id in H1, H2. rewrite H1, H2, Hblk; [done|].
    destruct (layout_index _ _ HK Hd). lia.
  - rewrite !(proj2 (lookup_ge_None _ _)) by lia. done.
Qed.

(** X5.  [bcrypt_hash] overwrites all 32 bytes of [out]: the result has 32
    entries, each a byte value, and does not depend on what [out] held
    before. *)
Theorem bcrypt_hash_overwrites_out {BF : Blowfish} sha2pass sha2salt out out' :
  length out = 32%nat -> length out' = 32%nat ->
  bcrypt_hash sha2pass sha2salt out = bcrypt_hash sha2pass sha2salt out'
  /\ length (bcrypt_hash sha2pass sha2salt out) = 32%nat
  /\ Forall (fun b => 0 <= b < 256) (bcrypt_hash sha2pass sha2salt out).
Proof.
  intros H H'. split; [by apply bcrypt_hash_indep|].
  split; [by rewrite length_bcrypt_hash|]. by apply bcrypt_hash_range.
Qed.

(** ** The properties on concrete calls *)

Import Toy.

Lemma bcrypt_hash_little_endian_witness :
  length (replicate 32 0) = 32%nat
  /\ 0 <= 2 < BCRYPT_WORDS
  /\ bcrypt_hash [1] [2] (replicate 32 0) !! Z.to_nat (4 * 2)
     = Some (Z.land (load (bcrypt_cdata [1] [2]) 2) 255)
  /\ bcrypt_hash [1] [2] (replicate 32 0) !! Z.to_nat (4 * 2 + 3)
     = Some (Z.land (Z.shiftr (load (bcrypt_cdata [1] [2]) 2) 24) 255).
Proof.
  assert (H1 : length (replicate 32 0) = 32%nat) by reflexivity.
  assert (H2 : 0 <= 2 < BCRYPT_WORDS) by (unfold BCRYPT_WORDS; lia).
  pose proof (bcrypt_hash_little_endian [1] [2] (replicate 32 0) 2 H1 H2) as H.
  cbv zeta in H. destruct H as (Ha & _ & _ & Hd & _).
  exact (conj H1 (conj H2 (conj Ha Hd))).
Defined.

Lemma derive_key_writes_each_byte_once_witness :
  valid_input [112; 119] [115; 97; 108; 116] (replicate 33 0) 2 = true
  /\ calloc_ok env0 = true
  /\ (Z.to_nat (stride_of (Z.of_nat (length (replicate 33 0)))) <= 2)%nat
  /\ exists r,
       citadel_bcrypt_pbkdf toy_hash 2 env0 [112; 119] [115; 97; 108; 116]
         (replicate 33 0) 2 = Some r
       /\ ret r = 0
       /\ length (r_key r) = 33%nat
       /\ length (r_key_stores r) = 33%nat
       /\ (forall d, 0 <= d < 33 ->
             count_occ Z.eq_dec (r_key_stores r) d = 1%nat)
       /\ (forall d, In d (r_key_stores r) -> 0 <= d < 33)
       /\ r_key_stores r
          = flat_map
              (fun c : nat =>
                 map (fun i : nat => Z.of_nat i * stride_of 33 + Z.of_nat c)
                   (seq 0 (Z.to_nat ((33 - Z.of_nat c + stride_of 33 - 1)
                                     / stride_of 33))))
              (seq 0 (Z.to_nat (stride_of 33)))
       /\ (forall c i,
             0 <= c < stride_of 33 -> 0 <= i -> i * stride_of 33 + c < 33 ->
             r_key r !! Z.to_nat (i * stride_of 33 + c)
             = Some (load (pbkdf_block toy_hash [112; 119]
                             [115; 97; 108; 116] 2 (c + 1)) i))
       /\ (forall d, 0 <= d < 33 ->
             r_key r !! Z.to_nat d
             = Some (load (pbkdf_block toy_hash [112; 119]
                             [115; 97; 108; 116] 2 (d mod stride_of 33 + 1))
                       (d / stride_of 33))).
Proof.
  assert (H1 : valid_input [112; 119] [115; 97; 108; 116] (replicate 33 0) 2
               = true) by reflexivity.
  assert (H2 : calloc_ok env0 = true) by reflexivity.
  assert (H3 : (Z.to_nat (stride_of (Z.of_nat (length (replicate 33 0))))
                <= 2)%nat) by (vm_compute; lia).
  split; [exact H1|]. split; [exact H2|]. split; [exact H3|].
  exact (proj2 (proj2 (derive_key_writes_each_byte_once toy_hash 2 env0
                         [112; 119] [115; 97; 108; 116] (replicate 33 0) 2
                         H1 H2 H3))).
Defined.

Lemma derive_key_fails_iff_witness :
  (32 <= 32)%nat
  /\ exists r,
       citadel_bcrypt_pbkdf toy_hash 32 env0 [] [115] (replicate 8 0) 2 = Some r
       /\ (ret r = -1 \/ ret r = 0)
       /\ (ret r = -1 <->
           2 < 1 \/ @nil Z = [] \/ [115] = []
           \/ Z.of_nat (length (replicate 8 0)) = 0
           \/ Z.of_nat (length (replicate 8 0)) > 1024
           \/ Z.of_nat (length [115]) > 2 ^ 20
           \/ calloc_ok env0 = false)
       /\ (ret r = -1 ->
           r_sha512_calls r = 0%nat /\ r_bcrypt_calls r = 0%nat
           /\ r_key_stores r = [] /\ r_freed r = None)
       /\ (ret r = 0 ->
           (1 <= r_sha512_calls r)%nat /\ (1 <= r_bcrypt_calls r)%nat).
Proof.
  assert (H1 : (32 <= 32)%nat) by lia.
  split; [exact H1|].
  exact (derive_key_fails_iff toy_hash 32 env0 [] [115] (replicate 8 0) 2 H1).
Defined.

Lemma outer_loop_makes_stride_passes_witness :
  valid_input [112; 119] [115; 97; 108; 116] (replicate 70 0) 2 = true
  /\ stride_of 70 = 3
  /\ exists r,
       citadel_bcrypt_pbkdf toy_hash 3 env0 [112; 119] [115; 97; 108; 116]
         (replicate 70 0) 2 = Some r
       /\ ret r = 0 /\ r_count r = 3 + 1.
Proof.
  assert (H1 : valid_input [112; 119] [115; 97; 108; 116] (replicate 70 0) 2
               = true) by reflexivity.
  split; [exact H1|]. split; [reflexivity|].
  refine (proj2 (proj2 (proj2 (proj2 (proj2
            (outer_loop_makes_stride_passes toy_hash 3 env0
               [112; 119] [115; 97; 108; 116] (replicate 70 0) 2 H1)))))
            _ _).
  - reflexivity.
  - vm_compute. lia.
Defined.

Lemma single_block_key_is_prefix_witness :
  valid_input [112; 119] [115; 97; 108; 116] (replicate 20 0) 2 = true
  /\ calloc_ok env0 = true
  /\ Z.of_nat (length (replicate 20 0)) <= 32
  /\ (1 <= 1)%nat
  /\ stride_of 20 = 1 /\ amt_of 20 = 20
  /\ exists r,
       citadel_bcrypt_pbkdf toy_hash 1 env0 [112; 119] [115; 97; 108; 116]
         (replicate 20 0) 2 = Some r
       /\ ret r = 0 /\ r_count r = 2
       /\ length (pbkdf_block toy_hash [112; 119] [115; 97; 108; 116] 2 1)
          = 32%nat
       /\ r_key r
          = take 20 (pbkdf_block toy_hash [112; 119] [115; 97; 108; 116] 2 1).
Proof.
  assert (H1 : valid_input [112; 119] [115; 97; 108; 116] (replicate 20 0) 2
               = true) by reflexivity.
  assert (H2 : calloc_ok env0 = true) by reflexivity.
  assert (H3 : Z.of_nat (length (replicate 20 0)) <= 32) by (simpl; lia).
  assert (H4 : (1 <= 1)%nat) by lia.
  do 4 (split; [assumption|]).
  exact (single_block_key_is_prefix toy_hash 1 env0 [112; 119]
           [115; 97; 108; 116] (replicate 20 0) 2 H1 H2 H3 H4).
Defined.

Lemma two_blocks_interleave_witness :
  valid_input [112; 119] [115; 97; 108; 116] (replicate 64 0) 2 = true
  /\ calloc_ok env0 = true
  /\ length (replicate 64 0) = 64%nat
  /\ (2 <= 2)%nat
  /\ 0 <= 5 < 16
  /\ exists r,
       citadel_bcrypt_pbkdf toy_hash 2 env0 [112; 119] [115; 97; 108; 116]
         (replicate 64 0) 2 = Some r
       /\ ret r = 0
       /\ r_key r !! Z.to_nat (5 * 2)
          = Some (load (pbkdf_block toy_hash [112; 119] [115; 97; 108; 116] 2 1) 5)
       /\ r_key r !! Z.to_nat (5 * 2 + 1)
          = Some (load (pbkdf_block toy_hash [112; 119] [115; 97; 108; 116] 2 2) 5).
Proof.
  assert (H1 : valid_input [112; 119] [115; 97; 108; 116] (replicate 64 0) 2
               = true) by reflexivity.
  assert (H2 : calloc_ok env0 = true) by reflexivity.
  assert (H3 : length (replicate 64 0) = 64%nat) by reflexivity.
  assert (H4 : (2 <= 2)%nat) by lia.
  assert (H5 : 0 <= 5 < 16) by lia.
  do 5 (split; [assumption|]).
  exact (proj2 (proj2 (proj2
           (two_blocks_interleave toy_hash 2 env0 [112; 119]
              [115; 97; 108; 116] (replicate 64 0) 2 5 H1 H2 H3 H4 H5)))).
Defined.

Lemma derive_key_deterministic_witness :
  valid_input [112; 119] [115; 97; 108; 116] (replicate 40 0) 2 = true
  /\ length (replicate 40 255) = length (replicate 40 0)
  /\ calloc_ok env0 = true /\ calloc_ok env1 = true
  /\ (32 <= 32)%nat /\ (32 <= 40)%nat
  /\ exists r1 r2,
       citadel_bcrypt_pbkdf toy_hash 32 env0 [112; 119] [115; 97; 108; 116]
         (replicate 40 0) 2 = Some r1
       /\ citadel_bcrypt_pbkdf toy_hash 40 env1 [112; 119] [115; 97; 108; 116]
            (replicate 40 255) 2 = Some r2
       /\ ret r1 = 0 /\ ret r2 = 0
       /\ r_key r1 = r_key r2.
Proof.
  assert (H1 : valid_input [112; 119] [115; 97; 108; 116] (replicate 40 0) 2
               = true) by reflexivity.
  assert (H2 : length (replicate 40 255) = length (replicate 40 0))
    by reflexivity.
  assert (H3 : calloc_ok env0 = true) by reflexivity.
  assert (H4 : calloc_ok env1 = true) by reflexivity.
  assert (H5 : (32 <= 32)%nat) by lia.
  assert (H6 : (32 <= 40)%nat) by lia.
  do 6 (split; [assumption|]).
  exact (derive_key_deterministic toy_hash 32 40 env0 env1 [112; 119]
           [115; 97; 108; 116] (replicate 40 0) (replicate 40 255) 2
           H1 H2 H3 H4 H5 H6).
Defined.


Lemma zap_on_return_witness :
  (32 <= 32)%nat
  /\ exists r,
       citadel_bcrypt_pbkdf toy_hash 32 env0 [112; 119] [115; 97; 108; 116]
         (replicate 40 0) 2 = Some r
       /\ (ret r = 0 \/ ret r = -1)
       /\ (ret r = 0 ->
           r_out r = replicate 32 0 /\ r_tmpout r = replicate 32 0
           /\ r_sha2pass r = toy_hash [112; 119]
           /\ r_sha2salt r
              = pbkdf_last_sha2salt toy_hash [112; 119] [115; 97; 108; 116] 2
                  (stride_of (Z.of_nat (length (replicate 40 0))))).
Proof.
  assert (H1 : (32 <= 32)%nat) by lia.
  split; [exact H1|].
  destruct (zap_on_return toy_hash 32 env0 [112; 119] [115; 97; 108; 116]
              (replicate 40 0) 2 H1) as (r & Ha & Hb & Hc & _).
  exact (ex_intro _ r (conj Ha (conj Hb Hc))).
Defined.

(** A successful call leaves the password digest and the last salt digest
    in their arrays and hands the salt and counter to [free] as they
    are. *)
Lemma digests_left_in_place :
  exists r,
    citadel_bcrypt_pbkdf toy_hash 1 env0 [112; 119] [115; 97; 108; 116]
      [0; 0; 0; 0] 1 = Some r
    /\ ret r = 0
    /\ r_sha2pass r = toy_hash [112; 119]
    /\ r_sha2pass r <> replicate 64 0
    /\ r_sha2salt r <> replicate 64 0
    /\ r_freed r = Some [115; 97; 108; 116; 0; 0; 0; 1].
Proof.
  eexists. split; [vm_compute; reflexivity|].
  cbn [ret r_sha2pass r_sha2salt r_freed].
  split; [reflexivity|]. split; [reflexivity|].
  split; [discriminate|]. split; [discriminate|]. reflexivity.
Qed.


(** C3 at a failing input.  Built without [__APPLE__], a call with
    [rounds = 0] and a 257-byte key buffer returns -1 and leaves the
    buffer as it was: [getentropy] refuses more than 256 bytes and its
    result is not looked at. *)
Lemma long_key_not_overwritten_on_failure :
  on_apple env0 = false
  /\ exists r,
       citadel_bcrypt_pbkdf toy_hash 32 env0 [112; 119] [115; 97; 108; 116]
         (replicate 257 65) 0 = Some r
       /\ ret r = -1
       /\ r_key r = replicate 257 65.
Proof.
  split; [reflexivity|].
  eexists. split; [vm_compute; reflexivity|]. split; reflexivity.
Qed.

(** ** The further properties on concrete calls *)

Lemma key_layout_witness :
  valid_input [112; 119] [115; 97; 108; 116] (replicate 70 0) 2 = true
  /\ calloc_ok env0 = true
  /\ (32 <= 32)%nat
  /\ 0 <= 50 < Z.of_nat (length (replicate 70 0))
  /\ exists r,
       citadel_bcrypt_pbkdf toy_hash 32 env0 [112; 119] [115; 97; 108; 116]
         (replicate 70 0) 2 = Some r
       /\ ret r = 0
       /\ load (r_key r) 50
          = load (pbkdf_block toy_hash [112; 119] [115; 97; 108; 116] 2
                    (50 mod stride_of (Z.of_nat (length (replicate 70 0))) + 1))
              (50 / stride_of (Z.of_nat (length (replicate 70 0)))).
Proof.
  assert (H1 : valid_input [112; 119] [115; 97; 108; 116] (replicate 70 0) 2
               = true) by reflexivity.
  assert (H2 : calloc_ok env0 = true) by reflexivity.
  assert (H3 : (32 <= 32)%nat) by lia.
  assert (H4 : 0 <= 50 < Z.of_nat (length (replicate 70 0))) by (simpl; lia).
  do 4 (split; [assumption|]).
  destruct (key_layout toy_hash 32 env0 [112; 119] [115; 97; 108; 116]
              (replicate 70 0) 2 50 H1 H2 H3 H4)
    as (r & Ha & Hb & _ & _ & _ & _ & Hc).
  exact (ex_intro _ r (conj Ha (conj Hb Hc))).
Defined.

Lemma shorter_key_is_prefix_witness :
  valid_input [112; 119] [115; 97; 108; 116] (replicate 40 0) 2 = true
  /\ valid_input [112; 119] [115; 97; 108; 116] (replicate 64 255) 2 = true
  /\ (length (replicate 40 0) <= length (replicate 64 255))%nat
  /\ stride_of (Z.of_nat (length (replicate 40 0)))
     = stride_of (Z.of_nat (length (replicate 64 255)))
  /\ calloc_ok env0 = true /\ calloc_ok env1 = true
  /\ (32 <= 32)%nat
  /\ exists r1 r2,
       citadel_bcrypt_pbkdf toy_hash 32 env0 [112; 119] [115; 97; 108; 116]
         (replicate 40 0) 2 = Some r1
       /\ citadel_bcrypt_pbkdf toy_hash 32 env1 [112; 119] [115; 97; 108; 116]
            (replicate 64 255) 2 = Some r2
       /\ ret r1 = 0 /\ ret r2 = 0
       /\ r_key r1 = take (length (replicate 40 0)) (r_key r2).
Proof.
  assert (H1 : valid_input [112; 119] [115; 97; 108; 116] (replicate 40 0) 2
               = true) by reflexivity.
  assert (H2 : valid_input [112; 119] [115; 97; 108; 116] (replicate 64 255) 2
               = true) by reflexivity.
  assert (H3 : (length (replicate 40 0) <= length (replicate 64 255))%nat)
    by (simpl; lia).
  assert (H4 : stride_of (Z.of_nat (length (replicate 40 0)))
               = stride_of (Z.of_nat (length (replicate 64 255))))
    by reflexivity.
  assert (H5 : calloc_ok env0 = true) by reflexivity.
  assert (H6 : calloc_ok env1 = true) by reflexivity.
  assert (H7 : (32 <= 32)%nat) by lia.
  do 7 (split; [assumption|]).
  exact (shorter_key_is_prefix toy_hash 32 env0 env1 [112; 119]
           [115; 97; 108; 116] (replicate 40 0) (replicate 64 255) 2
           H1 H2 H3 H4 H5 H6 H7).
Defined.

Lemma pass_stores_every_stride_th_index_witness :
  valid_input [112; 119] [115; 97; 108; 116] (replicate 70 0) 2 = true
  /\ Z.of_nat 1 < stride_of (Z.of_nat (length (replicate 70 0)))
  /\ (let K := Z.of_nat (length (replicate 70 0)) in
      let s := stride_of K in
      let sha2pass :=
        citadel_crypto_hash_sha512 toy_hash [112; 119]
          (Z.of_nat (length [112; 119])) in
      let saltlen := Z.of_nat (length [115; 97; 108; 116]) in
      let body := loop_body toy_hash sha2pass saltlen 2 s K in
      let st := fun k : nat =>
                  Nat.iter k body
                    (loop_init env0 [115; 97; 108; 116] (replicate 70 0)) in
      let n := (K - Z.of_nat 1 + s - 1) / s in
      1 <= n <= 32
      /\ ls_count (st 1%nat) = Z.of_nat 1 + 1
      /\ ls_key_stores (st 2%nat)
         = ls_key_stores (st 1%nat)
           ++ map (fun j : nat => Z.of_nat j * s + Z.of_nat 1)
                (seq 0 (Z.to_nat n))
      /\ ls_keylen (st 2%nat) = ls_keylen (st 1%nat) - n).
Proof.
  assert (H1 : valid_input [112; 119] [115; 97; 108; 116] (replicate 70 0) 2
               = true) by reflexivity.
  assert (H2 : Z.of_nat 1 < stride_of (Z.of_nat (length (replicate 70 0))))
    by reflexivity.
  do 2 (split; [assumption|]).
  pose proof (pass_stores_every_stride_th_index toy_hash env0 [112; 119]
                [115; 97; 108; 116] (replicate 70 0) 2 1 H1 H2) as H.
  cbv zeta in H |- *. destruct H as (Ha & Hb & Hc & Hd & _).
  exact (conj Ha (conj Hb (conj Hc Hd))).
Defined.

Lemma failure_fills_key_witness :
  (valid_input [112; 119] [115; 97; 108; 116] (replicate 10 65) 0 = false
   \/ calloc_ok env0 = false)
  /\ exists r,
       citadel_bcrypt_pbkdf toy_hash 0 env0 [112; 119] [115; 97; 108; 116]
         (replicate 10 65) 0 = Some r
       /\ ret r = -1
       /\ length (r_key r) = length (replicate 10 65)
       /\ r_key r
          = if on_apple env0 || (Z.of_nat (length (replicate 10 65)) <=? 256)
            then map (random_byte env0) (seq 0 (length (replicate 10 65)))
            else replicate 10 65.
Proof.
  assert (H1 : valid_input [112; 119] [115; 97; 108; 116] (replicate 10 65) 0
               = false \/ calloc_ok env0 = false) by (left; reflexivity).
  split; [exact H1|].
  exact (failure_fills_key toy_hash 0 env0 [112; 119] [115; 97; 108; 116]
           (replicate 10 65) 0 H1).
Defined.

Lemma bcrypt_hash_overwrites_out_witness :
  length (replicate 32 0) = 32%nat
  /\ length (replicate 32 9) = 32%nat
  /\ bcrypt_hash [1] [2] (replicate 32 0) = bcrypt_hash [1] [2] (replicate 32 9)
  /\ length (bcrypt_hash [1] [2] (replicate 32 0)) = 32%nat
  /\ Forall (fun b => 0 <= b < 256) (bcrypt_hash [1] [2] (replicate 32 0)).
Proof.
  assert (H1 : length (replicate 32 0) = 32%nat) by reflexivity.
  assert (H2 : length (replicate 32 9) = 32%nat) by reflexivity.
  do 2 (split; [assumption|]).
  exact (bcrypt_hash_overwrites_out [1] [2] (replicate 32 0) (replicate 32 9)
           H1 H2).
Defined.

Lemma working_buffer_layout_witness :
  valid_input [112; 119] [115; 97; 108; 116] (replicate 70 0) 2 = true
  /\ calloc_ok env0 = true
  /\ (32 <= 32)%nat
  /\ exists r blk,
       citadel_bcrypt_pbkdf toy_hash 32 env0 [112; 119] [115; 97; 108; 116]
         (replicate 70 0) 2 = Some r
       /\ ret r = 0
       /\ r_freed r = Some blk
       /\ Z.of_nat (length blk) = Z.of_nat (length [115; 97; 108; 116]) + 4
       /\ take (length [115; 97; 108; 116]) blk = [115; 97; 108; 116]
       /\ drop (length [115; 97; 108; 116]) blk
          = be32 (stride_of (Z.of_nat (length (replicate 70 0))))
       /\ be32_decode (drop (length [115; 97; 108; 116]) blk)
          = stride_of (Z.of_nat (length (replicate 70 0))).
Proof.
  assert (H1 : valid_input [112; 119] [115; 97; 108; 116] (replicate 70 0) 2
               = true) by reflexivity.
  assert (H2 : calloc_ok env0 = true) by reflexivity.
  assert (H3 : (32 <= 32)%nat) by lia.
  do 3 (split; [assumption|]).
  exact (working_buffer_layout toy_hash 32 env0 [112; 119]
           [115; 97; 108; 116] (replicate 70 0) 2 H1 H2 H3).
Defined.


Lemma password_only_through_digest_witness :
  valid_input [112; 119] [115; 97; 108; 116] (replicate 40 0) 2 = true
  /\ [119; 112] <> @nil Z
  /\ toy_hash [112; 119] = toy_hash [119; 112]
  /\ calloc_ok env0 = true
  /\ (32 <= 32)%nat
  /\ exists r1 r2,
       citadel_bcrypt_pbkdf toy_hash 32 env0 [112; 119] [115; 97; 108; 116]
         (replicate 40 0) 2 = Some r1
       /\ citadel_bcrypt_pbkdf toy_hash 32 env0 [119; 112] [115; 97; 108; 116]
            (replicate 40 0) 2 = Some r2
       /\ ret r1 = 0 /\ ret r2 = 0
       /\ r_key r1 = r_key r2.
Proof.
  assert (H1 : valid_input [112; 119] [115; 97; 108; 116] (replicate 40 0) 2
               = true) by reflexivity.
  assert (H2 : [119; 112] <> @nil Z) by discriminate.
  assert (H3 : toy_hash [112; 119] = toy_hash [119; 112]) by reflexivity.
  assert (H4 : calloc_ok env0 = true) by reflexivity.
  assert (H5 : (32 <= 32)%nat) by lia.
  do 5 (split; [assumption|]).
  exact (password_only_through_digest toy_hash 32 env0 [112; 119] [119; 112]
           [115; 97; 108; 116] (replicate 40 0) 2 H1 H2 H3 H4 H5).
Defined.

Lemma digest_inputs_witness :
  valid_input [112; 119] [115; 97; 108; 116] (replicate 40 0) 2 = true
  /\ calloc_ok env0 = true
  /\ (32 <= 32)%nat
  /\ toy_hash [112; 119] = toy_hash_2_8_32 [112; 119]
  /\ (forall c, 1 <= c <= stride_of (Z.of_nat (length (replicate 40 0))) ->
        toy_hash ([115; 97; 108; 116] ++ be32 c)
        = toy_hash_2_8_32 ([115; 97; 108; 116] ++ be32 c))
  /\ (forall x : list Z, length x = 32%nat -> toy_hash x = toy_hash_2_8_32 x)
  /\ toy_hash [1; 2; 3] <> toy_hash_2_8_32 [1; 2; 3]
  /\ exists r1 r2,
       citadel_bcrypt_pbkdf toy_hash 32 env0 [112; 119] [115; 97; 108; 116]
         (replicate 40 0) 2 = Some r1
       /\ citadel_bcrypt_pbkdf toy_hash_2_8_32 32 env0 [112; 119]
            [115; 97; 108; 116] (replicate 40 0) 2 = Some r2
       /\ ret r1 = 0 /\ ret r2 = 0
       /\ r_key r1 = r_key r2.
Proof.
  assert (H1 : valid_input [112; 119] [115; 97; 108; 116] (replicate 40 0) 2
               = true) by reflexivity.
  assert (H2 : calloc_ok env0 = true) by reflexivity.
  assert (H3 : (32 <= 32)%nat) by lia.
  assert (H4 : toy_hash [112; 119] = toy_hash_2_8_32 [112; 119])
    by reflexivity.
  assert (H5 : forall c,
            1 <= c <= stride_of (Z.of_nat (length (replicate 40 0))) ->
            toy_hash ([115; 97; 108; 116] ++ be32 c)
            = toy_hash_2_8_32 ([115; 97; 108; 116] ++ be32 c))
    by (intros c _; reflexivity).
  assert (H6 : forall x : list Z, length x = 32%nat ->
            toy_hash x = toy_hash_2_8_32 x)
    by (intros x Hx; unfold toy_hash_2_8_32; rewrite Hx; reflexivity).
  assert (H7 : toy_hash [1; 2; 3] <> toy_hash_2_8_32 [1; 2; 3])
    by discriminate.
  do 7 (split; [assumption|]).
  exact (digest_inputs toy_hash toy_hash_2_8_32 32 env0 [112; 119]
           [115; 97; 108; 116] (replicate 40 0) 2 H1 H2 H3 H4 H5 H6).
Defined.

Lemma single_round_key_witness :
  valid_input [112; 119] [115; 97; 108; 116] (replicate 70 0) 1 = true
  /\ calloc_ok env0 = true
  /\ (32 <= 32)%nat
  /\ 0 <= 50 < Z.of_nat (length (replicate 70 0))
  /\ exists r,
       citadel_bcrypt_pbkdf toy_hash 32 env0 [112; 119] [115; 97; 108; 116]
         (replicate 70 0) 1 = Some r
       /\ ret r = 0
       /\ load (r_key r) 50
          = load (bcrypt_hash (toy_hash [112; 119])
                    (toy_hash
                       ([115; 97; 108; 116]
                        ++ be32 (50 mod stride_of
                                          (Z.of_nat (length (replicate 70 0)))
                                 + 1)))
                    (replicate 32 0))
              (50 / stride_of (Z.of_nat (length (replicate 70 0)))).
Proof.
  assert (H1 : valid_input [112; 119] [115; 97; 108; 116] (replicate 70 0) 1
               = true) by reflexivity.
  assert (H2 : calloc_ok env0 = true) by reflexivity.
  assert (H3 : (32 <= 32)%nat) by lia.
  assert (H4 : 0 <= 50 < Z.of_nat (length (replicate 70 0))) by (simpl; lia).
  do 4 (split; [assumption|]).
  exact (single_round_key toy_hash 32 env0 [112; 119] [115; 97; 108; 116]
           (replicate 70 0) 50 H1 H2 H3 H4).
Defined.

Lemma some_rounds_collide_witness :
  valid_input [112; 119] [115; 97; 108; 116] [0] 1 = true
  /\ length [0] = 1%nat
  /\ calloc_ok env0 = true
  /\ (1 <= 1)%nat
  /\ exists r1 r2 o1 o2,
       1 <= r1 < r2 /\ r2 <= 257
       /\ citadel_bcrypt_pbkdf toy_hash 1 env0 [112; 119] [115; 97; 108; 116]
            [0] r1 = Some o1
       /\ citadel_bcrypt_pbkdf toy_hash 1 env0 [112; 119] [115; 97; 108; 116]
            [0] r2 = Some o2
       /\ ret o1 = 0 /\ ret o2 = 0
       /\ r_key o1 = r_key o2.
Proof.
  assert (H1 : valid_input [112; 119] [115; 97; 108; 116] [0] 1 = true)
    by reflexivity.
  assert (H2 : length [0] = 1%nat) by reflexivity.
  assert (H3 : calloc_ok env0 = true) by reflexivity.
  assert (H4 : (1 <= 1)%nat) by lia.
  do 4 (split; [assumption|]).
  exact (some_rounds_collide toy_hash 1 env0 [112; 119] [115; 97; 108; 116]
           [0] H1 H2 H3 H4).
Defined.

Lemma salt_only_through_digest_witness :
  valid_input [112; 119] [115; 97; 108; 116] (replicate 40 0) 2 = true
  /\ valid_input [112; 119] [116; 108; 97; 115] (replicate 40 0) 2 = true
  /\ (forall c, 1 <= c <= stride_of (Z.of_nat (length (replicate 40 0))) ->
        toy_hash ([115; 97; 108; 116] ++ be32 c)
        = toy_hash ([116; 108; 97; 115] ++ be32 c))
  /\ calloc_ok env0 = true
  /\ (32 <= 32)%nat
  /\ exists r1 r2,
       citadel_bcrypt_pbkdf toy_hash 32 env0 [112; 119] [115; 97; 108; 116]
         (replicate 40 0) 2 = Some r1
       /\ citadel_bcrypt_pbkdf toy_hash 32 env0 [112; 119] [116; 108; 97; 115]
            (replicate 40 0) 2 = Some r2
       /\ ret r1 = 0 /\ ret r2 = 0
       /\ r_key r1 = r_key r2.
Proof.
  assert (H1 : valid_input [112; 119] [115; 97; 108; 116] (replicate 40 0) 2
               = true) by reflexivity.
  assert (H2 : valid_input [112; 119] [116; 108; 97; 115] (replicate 40 0) 2
               = true) by reflexivity.
  assert (H3 : forall c,
            1 <= c <= stride_of (Z.of_nat (length (replicate 40 0))) ->
            toy_hash ([115; 97; 108; 116] ++ be32 c)
            = toy_hash ([116; 108; 97; 115] ++ be32 c)).
  { intros c _. unfold toy_hash. apply map_ext. intros k.
    f_equal. simpl. lia. }
  assert (H4 : calloc_ok env0 = true) by reflexivity.
  assert (H5 : (32 <= 32)%nat) by lia.
  do 5 (split; [assumption|]).
  exact (salt_only_through_digest toy_hash 32 env0 [112; 119]
           [115; 97; 108; 116] [116; 108; 97; 115] (replicate 40 0) 2
           H1 H2 H3 H4 H5).
Defined.
